(** * A shallow embedding of the limit order book (order_book.h / order_book.cpp)

    The book keeps three coupled structures: two ordered price maps
    ([bids_], [asks_]), a FIFO list of order nodes per price level, and a
    hash map from order id to the location of the order's node.  This file
    embeds the four public operations of [OrderBook] and proves the
    properties the specification states about them. *)

From Stdlib Require Import ZArith Lia Bool List.
From Stdlib Require Import Floats.SpecFloat.
From stdpp Require Import base option list sorting gmap fin_maps.

Open Scope Z_scope.

(** * The model *)

(** ** Machine data *)

(** [double]: IEEE 754 binary64 values.  Only comparisons are performed on
    prices, so the inductive specification of floats is enough: it has
    signed zeros, infinities and NaN, and its comparison is the IEEE one.
    (The type also has finite values with a mantissa or exponent outside
    binary64; nothing below depends on their absence.) *)
Abbreviation double := spec_float (only parsing).

(** [a < b] on doubles. *)
Definition double_lt (a b : double) : bool := SFltb a b.

(** [a != b] on doubles ([NaN != x] holds for every [x]). *)
Definition double_ne (a b : double) : bool := negb (SFeqb a b).

Definition is_nan (a : double) : bool :=
  match a with S754_nan => true | _ => false end.

(** The double nearest to an integer (used to write prices such as 100.0). *)
Definition double_of_Z (z : Z) : double := binary_normalize 53 1024 z 0 false.

(** [uint64_t] arithmetic wraps around modulo 2^64. *)
Definition uint64_max : Z := 2 ^ 64.
Definition wrap64 (z : Z) : Z := z mod uint64_max.
Definition is_uint64 (z : Z) : bool := (0 <=? z) && (z <? uint64_max).

(** ** std::map<double, V, Compare>

    The map is kept as the list of its entries in iteration order.  Every
    access walks to the first entry whose key is not ordered before the
    searched key (the map's lower bound) and then tests whether the
    searched key is ordered before that entry's key. *)
Module StdMap.
Section Ops.
Context {V : Type}.
Variable comp : double -> double -> bool.
Variable dflt : V.

(** [m.find(k)]: the entry equivalent to [k], or [None] for [end()]. *)
Fixpoint find (k : double) (m : list (double * V)) : option (double * V) :=
  match m with
  | [] => None
  | (k', v) :: m' =>
      if comp k' k then find k m'
      else if comp k k' then None
      else Some (k', v)
  end.

(** [m[k]]: inserts a value-initialised entry when no entry is
    equivalent to [k]; an existing entry keeps its key. *)
Fixpoint subscript (k : double) (m : list (double * V)) : list (double * V) :=
  match m with
  | [] => [(k, dflt)]
  | (k', v) :: m' =>
      if comp k' k then (k', v) :: subscript k m'
      else if comp k k' then (k, dflt) :: m
      else m
  end.

(** A write through the reference [it->second] where [it = m.find(k)]. *)
Fixpoint alter (f : V -> V) (k : double) (m : list (double * V)) : list (double * V) :=
  match m with
  | [] => []
  | (k', v) :: m' =>
      if comp k' k then (k', v) :: alter f k m'
      else if comp k k' then m
      else (k', f v) :: m'
  end.

(** [m.erase(it)] where [it = m.find(k)]. *)
Fixpoint erase (k : double) (m : list (double * V)) : list (double * V) :=
  match m with
  | [] => []
  | (k', v) :: m' =>
      if comp k' k then (k', v) :: erase k m'
      else if comp k k' then m
      else m'
  end.

(** Two keys are equivalent when neither is ordered before the other. *)
Definition eqv (k1 k2 : double) : Prop :=
  comp k1 k2 = false /\ comp k2 k1 = false.

(** The entries are strictly ordered by the comparator. *)
Definition sorted (m : list (double * V)) : Prop :=
  StronglySorted (fun a b => comp a b = true) (m.*1).

(** The entries the scan for [k] passes over. *)
Definition before (k : double) (m : list (double * V)) : Prop :=
  Forall (fun e => comp e.1 k = true) m.
End Ops.
End StdMap.

(** [std::less<double>] and [std::greater<double>]. *)
Definition less (a b : double) : bool := double_lt a b.
Definition greater (a b : double) : bool := double_lt b a.

(** A comparator the ordered map may be instantiated with. *)
Class Comparator (comp : double -> double -> bool) : Prop := {
  comp_irrefl a : comp a a = false;
  comp_trans a b c : comp a b = true -> comp b c = true -> comp a c = true;
  comp_negtrans a b c :
    is_nan b = false -> comp a b = false -> comp b c = false -> comp a c = false
}.

(** ** The data model of order_book.h *)

Record Order := mkOrder {
  order_id : Z;
  is_buy : bool;
  price : double;
  quantity : Z;
  timestamp_ns : Z
}.

Record PriceLevel := mkPriceLevel {
  pl_price : double;
  pl_total_quantity : Z
}.

(** A [std::list<OrderNode>::iterator] is the address of a list node. *)
Abbreviation iter := positive (only parsing).

Record OrderNode := mkOrderNode {
  order : Order;
  list_iter : iter
}.

(** [orders] lists the addresses of the nodes of the level's
    [std::list<OrderNode>], front first; the nodes themselves live in the
    book's node store. *)
Record PriceLevelData := mkPriceLevelData {
  lvl_price : double;
  orders : list iter;
  total_quantity : Z
}.

Record OrderLocation := mkOrderLocation {
  loc_is_buy : bool;
  loc_price : double;
  loc_list_iter : iter
}.

(** The private state of [OrderBook].  [nodes] is the memory holding the
    list nodes that the iterators point to. *)
Record OrderBook := mkOrderBook {
  bids_ : list (double * PriceLevelData);
  asks_ : list (double * PriceLevelData);
  order_lookup_ : gmap Z OrderLocation;
  nodes : gmap iter OrderNode
}.

(** A value-initialised [PriceLevelData]. *)
Definition PriceLevelData_default : PriceLevelData :=
  mkPriceLevelData (S754_zero false) [] 0.

(** [OrderBook() = default]. *)
Definition empty_book : OrderBook := mkOrderBook [] [] ∅ ∅.

(** The address [push_back] obtains for a new node: one not in use. *)
Definition new_node (S : OrderBook) : iter := fresh (dom (nodes S)).

(** [orders.erase(it)]: unlinks the node at [it]; erasing a node that is
    not in the list is undefined ([None]). *)
Fixpoint list_erase (it : iter) (l : list iter) : option (list iter) :=
  match l with
  | [] => None
  | x :: l' => if Pos.eqb x it then Some l' else cons x <$> list_erase it l'
  end.

Definition is_empty (l : list iter) : bool :=
  match l with [] => true | _ => false end.

(** ** The operations of order_book.cpp *)

(** The writes [add_order] makes to the level it obtained: the price is
    set, the node at [it] is pushed at the back of the queue and the
    aggregate grows by the order's quantity. *)
Definition push_order (o : Order) (it : iter) (level : PriceLevelData)
    : PriceLevelData :=
  mkPriceLevelData (price o) (orders level ++ [it])
                   (wrap64 (total_quantity level + quantity o)).

Definition add_order (o : Order) (S : OrderBook) : OrderBook :=
  let it := new_node S in
  let node := mkOrderNode o it in
  let location := mkOrderLocation (is_buy o) (price o) it in
  if is_buy o then
    mkOrderBook
      (StdMap.alter greater (push_order o it) (price o)
         (StdMap.subscript greater PriceLevelData_default (price o) (bids_ S)))
      (asks_ S)
      (<[order_id o := location]> (order_lookup_ S))
      (<[it := node]> (nodes S))
  else
    mkOrderBook
      (bids_ S)
      (StdMap.alter less (push_order o it) (price o)
         (StdMap.subscript less PriceLevelData_default (price o) (asks_ S)))
      (<[order_id o := location]> (order_lookup_ S))
      (<[it := node]> (nodes S)).

(** The shared body of the two branches of [cancel_order], for the side map
    [side] ordered by [comp].  [None] stands for undefined behaviour: a
    read through a dangling iterator or an erase of a foreign node. *)
Definition cancel_in (comp : double -> double -> bool)
    (location : OrderLocation) (S : OrderBook)
    (side : list (double * PriceLevelData))
    : option (option (list (double * PriceLevelData))) :=
  match StdMap.find comp (loc_price location) side with
  | None => Some None
  | Some (_, price_level) =>
      node ← nodes S !! loc_list_iter location;
      let total := wrap64 (total_quantity price_level - quantity (order node)) in
      orders' ← list_erase (loc_list_iter location) (orders price_level);
      if is_empty orders' then
        Some (Some (StdMap.erase comp (loc_price location) side))
      else
        Some (Some (StdMap.alter comp
          (fun level => mkPriceLevelData (lvl_price level) orders' total)
          (loc_price location) side))
  end.

Definition cancel_order (id : Z) (S : OrderBook) : option (bool * OrderBook) :=
  match order_lookup_ S !! id with
  | None => Some (false, S)
  | Some location =>
      if loc_is_buy location then
        r ← cancel_in greater location S (bids_ S);
        match r with
        | None => Some (false, S)
        | Some bids' =>
            Some (true, mkOrderBook bids' (asks_ S)
                          (delete id (order_lookup_ S))
                          (delete (loc_list_iter location) (nodes S)))
        end
      else
        r ← cancel_in less location S (asks_ S);
        match r with
        | None => Some (false, S)
        | Some asks' =>
            Some (true, mkOrderBook (bids_ S) asks'
                          (delete id (order_lookup_ S))
                          (delete (loc_list_iter location) (nodes S)))
        end
  end.

(** The level after an in-place amend from quantity [old_q] to [new_q]:
    [total_quantity = total_quantity - old_q + new_q]. *)
Definition amend_level (old_q new_q : Z) (level : PriceLevelData) : PriceLevelData :=
  mkPriceLevelData (lvl_price level) (orders level)
    (wrap64 (wrap64 (total_quantity level - old_q) + new_q)).

(** [order.quantity = new_quantity]. *)
Definition amend_quantity (o : Order) (new_q : Z) : Order :=
  mkOrder (order_id o) (is_buy o) (price o) new_q (timestamp_ns o).

(** [new_order]: a copy of [order] with the new price and quantity. *)
Definition amend_price (o : Order) (new_price : double) (new_q : Z) : Order :=
  mkOrder (order_id o) (is_buy o) new_price new_q (timestamp_ns o).

(** The in-place branch of [amend_order] on the side map [side]. *)
Definition amend_in (comp : double -> double -> bool)
    (location : OrderLocation) (o : Order) (new_quantity : Z)
    (side : list (double * PriceLevelData))
    : option (list (double * PriceLevelData)) :=
  match StdMap.find comp (loc_price location) side with
  | None => None
  | Some _ =>
      Some (StdMap.alter comp (amend_level (quantity o) new_quantity)
              (loc_price location) side)
  end.

Definition amend_order (id : Z) (new_price : double) (new_quantity : Z)
    (S : OrderBook) : option (bool * OrderBook) :=
  match order_lookup_ S !! id with
  | None => Some (false, S)
  | Some location =>
      node ← nodes S !! loc_list_iter location;
      let o := order node in
      if double_ne (price o) new_price then
        let new_order := amend_price o new_price new_quantity in
        r ← cancel_order id S;
        Some (true, add_order new_order r.2)
      else
        let node' := mkOrderNode (amend_quantity o new_quantity) (list_iter node) in
        if loc_is_buy location then
          match amend_in greater location o new_quantity (bids_ S) with
          | None => Some (false, S)
          | Some bids' =>
              Some (true, mkOrderBook bids' (asks_ S) (order_lookup_ S)
                            (<[loc_list_iter location := node']> (nodes S)))
          end
        else
          match amend_in less location o new_quantity (asks_ S) with
          | None => Some (false, S)
          | Some asks' =>
              Some (true, mkOrderBook (bids_ S) asks' (order_lookup_ S)
                            (<[loc_list_iter location := node']> (nodes S)))
          end
  end.

(** One of the two loops of [get_snapshot]: [count] levels have been
    copied into [out] so far. *)
Fixpoint collect (depth count : nat) (m : list (double * PriceLevelData))
    (out : list PriceLevel) : list PriceLevel :=
  match m with
  | [] => out
  | (p, price_level) :: m' =>
      if (depth <=? count)%nat then out
      else collect depth (Datatypes.S count) m'
             (out ++ [mkPriceLevel p (total_quantity price_level)])
  end.

(** [get_snapshot] is a [const] member: the result carries the book it
    leaves behind together with the two vectors it filled. *)
Definition get_snapshot (depth : nat) (bids asks : list PriceLevel)
    (S : OrderBook) : OrderBook * (list PriceLevel * list PriceLevel) :=
  let bids := [] in
  let asks := [] in
  (S, (collect depth 0 (bids_ S) bids, collect depth 0 (asks_ S) asks)).

(** ** Views of the book *)

(** The side map an order of side [b] rests in, and its comparator. *)
Definition side (b : bool) (S : OrderBook) : list (double * PriceLevelData) :=
  if b then bids_ S else asks_ S.

Definition side_comp (b : bool) : double -> double -> bool :=
  if b then greater else less.

(** A book given by the map of side [b] and the map of the other side. *)
Definition book_of (b : bool) (m other : list (double * PriceLevelData))
    (L : gmap Z OrderLocation) (N : gmap positive OrderNode) : OrderBook :=
  if b then mkOrderBook m other L N else mkOrderBook other m L N.

(** The node addresses linked into the queues of a side map. *)
Definition iters_of (m : list (double * PriceLevelData)) : list positive :=
  m ≫= (fun e => orders e.2).

(** Every queued node of the book: the live orders. *)
Definition queued (S : OrderBook) : list positive :=
  iters_of (bids_ S) ++ iters_of (asks_ S).

(** The quantity stored in the node at [it]. *)
Definition qty_at (N : gmap positive OrderNode) (it : positive) : Z :=
  match N !! it with Some n => quantity (order n) | None => 0 end.

(** The sum of the quantities of the nodes of a queue, as an integer. *)
Definition queue_sum (N : gmap positive OrderNode) (l : list positive) : Z :=
  foldr Z.add 0 (qty_at N <$> l).

(** The summary [get_snapshot] emits for an entry of a side map. *)
Definition summary (e : double * PriceLevelData) : PriceLevel :=
  mkPriceLevel e.1 (total_quantity e.2).

(** What is left of a level once the node at [it] is unlinked: nothing when
    the queue became empty, else the level with the shorter queue. *)
Definition level_rest (k : double) (pl : PriceLevelData) (orders' : list positive)
    (q : Z) : list (double * PriceLevelData) :=
  if is_empty orders' then []
  else [(k, mkPriceLevelData (lvl_price pl) orders'
              (wrap64 (total_quantity pl - q)))].

(** ** The representation invariant *)

(** A level holds at least one order and its aggregate is the sum of the
    quantities of its orders in [uint64_t] arithmetic. *)
Definition level_ok (N : gmap positive OrderNode) (pl : PriceLevelData) : Prop :=
  orders pl <> [] /\ total_quantity pl = wrap64 (queue_sum N (orders pl)).

(** The entry of [id] in the order index locates a queued node that
    carries an order with that id, on the side and at the price recorded. *)
Definition entry_ok (S : OrderBook) (id : Z) (loc : OrderLocation) : Prop :=
  is_nan (loc_price loc) = false /\
  exists k pl n,
    (k, pl) ∈ side (loc_is_buy loc) S /\
    StdMap.eqv (side_comp (loc_is_buy loc)) k (loc_price loc) /\
    loc_list_iter loc ∈ orders pl /\
    nodes S !! loc_list_iter loc = Some n /\
    order_id (order n) = id /\
    price (order n) = loc_price loc /\
    is_buy (order n) = loc_is_buy loc.

Record book_inv (S : OrderBook) : Prop := {
  inv_sorted b : StdMap.sorted (side_comp b) (side b S);
  inv_levels b k pl : (k, pl) ∈ side b S -> level_ok (nodes S) pl;
  inv_nodup b : NoDup (iters_of (side b S) ++ iters_of (side (negb b) S));
  inv_alloc b it : it ∈ iters_of (side b S) -> is_Some (nodes S !! it);
  inv_lookup id loc : order_lookup_ S !! id = Some loc -> entry_ok S id loc
}.

(** ** Reachable books *)

(** An order a caller can pass: its integer fields are [uint64_t] values
    and its price is a number.  (A NaN key breaks the strict weak ordering
    that [std::map] requires of its comparator.) *)
Definition wf_order (o : Order) : bool :=
  is_uint64 (order_id o) && negb (is_nan (price o)) &&
  is_uint64 (quantity o) && is_uint64 (timestamp_ns o).

(** The books the public interface produces from the empty book.  With
    [fresh_ids] set, every [add_order] uses an id that is not in the order
    index at the time of the call. *)
Inductive reachable_with (fresh_ids : bool) : OrderBook -> Prop :=
  | reach_empty : reachable_with fresh_ids empty_book
  | reach_add o S :
      reachable_with fresh_ids S ->
      wf_order o = true ->
      (fresh_ids = true -> order_lookup_ S !! order_id o = None) ->
      reachable_with fresh_ids (add_order o S)
  | reach_cancel id S r S' :
      reachable_with fresh_ids S ->
      is_uint64 id = true ->
      cancel_order id S = Some (r, S') ->
      reachable_with fresh_ids S'
  | reach_amend id p q S r S' :
      reachable_with fresh_ids S ->
      is_uint64 id = true -> is_nan p = false -> is_uint64 q = true ->
      amend_order id p q S = Some (r, S') ->
      reachable_with fresh_ids S'
  | reach_snapshot depth bids asks S :
      reachable_with fresh_ids S ->
      reachable_with fresh_ids (get_snapshot depth bids asks S).1.

(** Reachable by any sequence of calls. *)
Definition reachable : OrderBook -> Prop := reachable_with false.

(** Reachable by calls that never add an id that is already live. *)
Definition reachable_fresh : OrderBook -> Prop := reachable_with true.

(** The books that any further calls of the public interface produce from
    the book [S0]. *)
Inductive later_of (S0 : OrderBook) : OrderBook -> Prop :=
  | later_now : later_of S0 S0
  | later_add o S :
      later_of S0 S ->
      wf_order o = true ->
      later_of S0 (add_order o S)
  | later_cancel id S r S' :
      later_of S0 S ->
      is_uint64 id = true ->
      cancel_order id S = Some (r, S') ->
      later_of S0 S'
  | later_amend id p q S r S' :
      later_of S0 S ->
      is_uint64 id = true -> is_nan p = false -> is_uint64 q = true ->
      amend_order id p q S = Some (r, S') ->
      later_of S0 S'
  | later_snapshot depth bids asks S :
      later_of S0 S ->
      later_of S0 (get_snapshot depth bids asks S).1.

(** ** The statements of the specification *)

(** The prices of a sequence of summaries strictly decrease / increase. *)
Definition strictly_descending (l : list PriceLevel) : Prop :=
  StronglySorted (fun a b => double_lt (pl_price b) (pl_price a) = true) l.

Definition strictly_ascending (l : list PriceLevel) : Prop :=
  StronglySorted (fun a b => double_lt (pl_price a) (pl_price b) = true) l.


(** The entries the order index holds for [id]. *)
Definition entries_for (id : Z) (L : gmap Z OrderLocation)
    : list (Z * OrderLocation) :=
  filter (fun e => e.1 = id) (map_to_list L).

(** The statement "after [add_order o] the index holds two entries for the
    id of [o]". *)
Definition second_entry_created (o : Order) (S : OrderBook) : Prop :=
  (2 <= length (entries_for (order_id o) (order_lookup_ (add_order o S))))%nat.

(** The node [it] is linked into a queue and holds [n], and no entry of the
    order index locates it. *)
Definition orphaned (S : OrderBook) (it : positive) (n : OrderNode) : Prop :=
  it ∈ queued S /\
  nodes S !! it = Some n /\
  forall id l, order_lookup_ S !! id = Some l -> loc_list_iter l <> it.

(** The statement "an amend of the live order [id] at its own price [p]
    returns, and moves the aggregate of the level of the order by exactly
    [new_q - old_q]". *)
Definition amend_adjusts_exactly (S : OrderBook) (id : Z) (p : double) (new_q : Z)
    : Prop :=
  forall loc n k pl,
    order_lookup_ S !! id = Some loc ->
    nodes S !! loc_list_iter loc = Some n ->
    double_ne (price (order n)) p = false ->
    StdMap.find (side_comp (loc_is_buy loc)) (loc_price loc)
      (side (loc_is_buy loc) S) = Some (k, pl) ->
    exists S' k' pl',
      amend_order id p new_q S = Some (true, S') /\
      StdMap.find (side_comp (loc_is_buy loc)) (loc_price loc)
        (side (loc_is_buy loc) S') = Some (k', pl') /\
      total_quantity pl' - total_quantity pl = new_q - quantity (order n).

(** The aggregate of every level is the sum of the quantities of its
    orders, in [uint64_t] arithmetic. *)
Definition aggregation_mod (S : OrderBook) : Prop :=
  forall b k pl, (k, pl) ∈ side b S ->
    total_quantity pl = wrap64 (queue_sum (nodes S) (orders pl)).

(** The side and price of [loc] resolve to a level whose queue links [it]. *)
Definition resolves (S : OrderBook) (loc : OrderLocation) (it : positive) : Prop :=
  exists k pl,
    StdMap.find (side_comp (loc_is_buy loc)) (loc_price loc)
      (side (loc_is_buy loc) S) = Some (k, pl) /\
    it ∈ orders pl.

(** The index has an entry under [id] for the node [it]. *)
Definition located (S : OrderBook) (it : positive) (id : Z) : Prop :=
  exists loc,
    order_lookup_ S !! id = Some loc /\ loc_list_iter loc = it /\ resolves S loc it.

(** Every entry of the index locates a queued node. *)
Definition index_sound (S : OrderBook) : Prop :=
  forall id loc, order_lookup_ S !! id = Some loc ->
    loc_list_iter loc ∈ queued S /\ located S (loc_list_iter loc) id.

(** Every queued node (live order) has exactly one entry in the index. *)
Definition index_exact (S : OrderBook) : Prop :=
  forall it, it ∈ queued S ->
    exists id, located S it id /\ forall id', located S it id' -> id' = id.

(** The statement "aggregates are sums and every live order has exactly
    one index entry". *)
Definition book_consistent (S : OrderBook) : Prop :=
  aggregation_mod S /\ index_exact S.

(** Every queued node is located by the entry of the id it carries. *)
Definition indexed (S : OrderBook) : Prop :=
  forall it, it ∈ queued S ->
    exists n loc,
      nodes S !! it = Some n /\
      order_lookup_ S !! order_id (order n) = Some loc /\
      loc_list_iter loc = it.

(** ** Concrete books *)

(** The six orders of [test_add_orders] in the test driver. *)
Definition demo_orders : list Order :=
  [ mkOrder 1 true (double_of_Z 100) 50 1000;
    mkOrder 2 true (double_of_Z 100) 30 1001;
    mkOrder 3 true (double_of_Z 99) 100 1002;
    mkOrder 4 false (double_of_Z 101) 40 1003;
    mkOrder 5 false (double_of_Z 102) 60 1004;
    mkOrder 6 false (double_of_Z 101) 20 1005 ].

(** [add_order] for each order of a list, in order. *)
Definition add_all (os : list Order) (S : OrderBook) : OrderBook :=
  foldl (fun S o => add_order o S) S os.

(** The book holding the six orders. *)
Definition demo_book : OrderBook :=
  Eval vm_compute in add_all demo_orders empty_book.

(** Two resting buy orders of quantity 1 at 100.0. *)
Definition small_book : OrderBook :=
  Eval vm_compute in
    add_all [ mkOrder 1 true (double_of_Z 100) 1 0;
              mkOrder 2 true (double_of_Z 100) 1 0 ] empty_book.

(** One buy order of quantity 50 at 100.0. *)
Definition one_book : OrderBook :=
  add_order (mkOrder 1 true (double_of_Z 100) 50 0) empty_book.


(** Id 1 added a second time to [one_book]. *)
Definition dup_book : OrderBook :=
  add_order (mkOrder 1 true (double_of_Z 100) 30 1) one_book.

(** Two buy orders of quantity 2^63 at 100.0. *)
Definition huge_book : OrderBook :=
  add_order (mkOrder 2 true (double_of_Z 100) (2 ^ 63) 1)
    (add_order (mkOrder 1 true (double_of_Z 100) (2 ^ 63) 0) empty_book).

(** ** What a caller can observe of a level *)

(** The level a caller finds at price [p] on side [b], if any. *)
Definition level_at (b : bool) (p : double) (S : OrderBook)
    : option (double * PriceLevelData) :=
  StdMap.find (side_comp b) p (side b S).

(** The level found at a price once the node at [it], of quantity [q], has
    been unlinked from the book: a level that held only that node is gone,
    a level that held it among others has lost it and its quantity, and
    any other level is as before. *)
Definition without_node (it : positive) (q : Z)
    (lv : option (double * PriceLevelData)) : option (double * PriceLevelData) :=
  match lv with
  | None => None
  | Some (k, pl) =>
      if decide (it ∈ orders pl) then
        let rest := filter (fun x => x <> it) (orders pl) in
        if is_empty rest then None
        else Some (k, mkPriceLevelData (lvl_price pl) rest
                        (wrap64 (total_quantity pl - q)))
      else Some (k, pl)
  end.

(** The level found at the price of a new order [o] once the node at [it]
    has been pushed: the level found before with the node at the back, or
    a new level under the order's price. *)
Definition with_node (o : Order) (it : positive)
    (lv : option (double * PriceLevelData)) : option (double * PriceLevelData) :=
  match lv with
  | None => Some (price o, push_order o it PriceLevelData_default)
  | Some (k, pl) => Some (k, push_order o it pl)
  end.

(** A level of side [b] under key [k] is well placed in the node store
    [N]: the key is a number, and every node of the queue is allocated at
    its own address and carries an order of side [b] whose price compares
    equal to the key. *)
Definition level_placed (N : gmap positive OrderNode) (b : bool) (k : double)
    (pl : PriceLevelData) : Prop :=
  is_nan k = false /\
  forall it, it ∈ orders pl ->
    exists n,
      N !! it = Some n /\
      list_iter n = it /\
      is_buy (order n) = b /\
      double_ne (price (order n)) k = false.

(** Every level of the book is well placed. *)
Definition well_placed (S : OrderBook) : Prop :=
  forall b k pl, (k, pl) ∈ side b S -> level_placed (nodes S) b k pl.

(** The allocated nodes are the queued ones: none is leaked, none dangles. *)
Definition nodes_are_queued (S : OrderBook) : Prop :=
  forall it, is_Some (nodes S !! it) <-> it ∈ queued S.

(** ** print_book *)

(** What [print_book] sends to the output stream, line by line.  A row
    carries the two values that are streamed; how the stream renders them
    ([setw], [fixed], [setprecision]) is left to the stream. *)
Inductive OutLine :=
  | Banner
  | AsksHeader
  | Rule
  | BidsHeader
  | Row (total : Z) (p : double)
  | Footer.

Definition row (l : PriceLevel) : OutLine := Row (pl_total_quantity l) (pl_price l).

(** [print_book] reads a snapshot and prints the asks from the last to the
    first, then the bids from the first to the last. *)
Definition print_book (depth : nat) (S : OrderBook) : list OutLine :=
  let r := (get_snapshot depth [] [] S).2 in
  let bids := r.1 in
  let asks := r.2 in
  [Banner; AsksHeader] ++ (row <$> reverse asks) ++
  [Rule; BidsHeader] ++ (row <$> bids) ++ [Footer].

(** The prices of the rows of a printed block, top to bottom. *)
Definition row_prices (ls : list OutLine) : list double :=
  ls ≫= (fun l => match l with Row _ p => [p] | _ => [] end).

(** * Properties *)

(** ** The order on doubles

    [<] is irreflexive and transitive; away from NaN, "neither is ordered
    before the other" is transitive as well, which is what the ordered map
    requires of its comparator. *)

Ltac cmp_cases :=
  repeat match goal with
  | H : context [Z.compare ?a ?b] |- _ => destruct (Z.compare_spec a b)
  | |- context [Z.compare ?a ?b] => destruct (Z.compare_spec a b)
  | H : context [Pos.compare ?a ?b] |- _ => destruct (Pos.compare_spec a b)
  | |- context [Pos.compare ?a ?b] => destruct (Pos.compare_spec a b)
  end.

Ltac float_cases a b c :=
  unfold double_lt, SFltb, SFcompare;
  destruct a as [[]|[]| |[] ? ?], b as [[]|[]| |[] ? ?], c as [[]|[]| |[] ? ?];
  simpl; try done;
  change (Pos.compare_cont Eq) with Pos.compare;
  intros; cmp_cases; simpl in *; subst; try done; try lia.

Lemma double_lt_irrefl a : double_lt a a = false.
Proof.
  unfold double_lt, SFltb, SFcompare.
  destruct a as [[]|[]| |[] ? ?]; simpl; try done;
    change (Pos.compare_cont Eq) with Pos.compare;
    rewrite Z.compare_refl, Pos.compare_refl; done.
Qed.

Lemma double_lt_trans a b c :
  double_lt a b = true -> double_lt b c = true -> double_lt a c = true.
Proof. float_cases a b c. Qed.

Lemma double_lt_negtrans a b c :
  is_nan b = false ->
  double_lt a b = false -> double_lt b c = false -> double_lt a c = false.
Proof. float_cases a b c. Qed.

#[global] Instance less_comparator : Comparator less.
Proof.
  split; unfold less.
  - apply double_lt_irrefl.
  - apply double_lt_trans.
  - apply double_lt_negtrans.
Qed.

#[global] Instance greater_comparator : Comparator greater.
Proof.
  split; unfold greater.
  - apply double_lt_irrefl.
  - intros a b c H1 H2. exact (double_lt_trans c b a H2 H1).
  - intros a b c Hb H1 H2. exact (double_lt_negtrans c b a Hb H2 H1).
Qed.

(** ** Facts about the ordered map *)

Module StdMapFacts.
Import StdMap.
Section Facts.
Context {V : Type}.
Variable comp : double -> double -> bool.
Variable dflt : V.
Implicit Types (k : double) (v : V) (m : list (double * V)).
Local Abbreviation eqv := (StdMap.eqv comp).
Local Abbreviation sorted := (StdMap.sorted comp).
Local Abbreviation before := (StdMap.before comp).

Lemma find_Some_split k m k' v :
  find comp k m = Some (k', v) ->
  exists m1 m2,
    m = m1 ++ (k', v) :: m2 /\ eqv k' k /\
    (forall f, alter comp f k m = m1 ++ (k', f v) :: m2) /\
    erase comp k m = m1 ++ m2 /\
    subscript comp dflt k m = m.
Proof.
  induction m as [|[k0 v0] m IH]; simpl; [done|].
  destruct (comp k0 k) eqn:E1.
  - intros H. destruct (IH H) as (m1 & m2 & -> & He & Ha & Hr & Hs).
    exists ((k0, v0) :: m1), m2. repeat split; try apply He.
    + intros f. by rewrite Ha.
    + by rewrite Hr.
    + by rewrite Hs.
  - destruct (comp k k0) eqn:E2; [done|].
    intros [= -> ->]. exists [], m. by repeat split.
Qed.

Lemma find_None_split k m :
  find comp k m = None ->
  (forall f, alter comp f k m = m) /\ erase comp k m = m /\
  exists m1 m2, m = m1 ++ m2 /\ subscript comp dflt k m = m1 ++ (k, dflt) :: m2.
Proof.
  induction m as [|[k0 v0] m IH]; simpl.
  - intros _. repeat split. by exists [], [].
  - destruct (comp k0 k) eqn:E1.
    + intros H. destruct (IH H) as (Ha & Hr & m1 & m2 & Hm & Hs).
      repeat split.
      * intros f. by rewrite Ha.
      * by rewrite Hr.
      * exists ((k0, v0) :: m1), m2. simpl. by rewrite Hs, <- Hm.
    + destruct (comp k k0) eqn:E2; [|done].
      intros _. repeat split. by exists [], ((k0, v0) :: m).
Qed.

Lemma alter_keys f k m : (alter comp f k m).*1 = m.*1.
Proof.
  induction m as [|[k0 v0] m IH]; csimpl; [done|].
  destruct (comp k0 k); csimpl; [by rewrite IH|]. by destruct (comp k k0).
Qed.

Lemma erase_sublist k m : sublist (erase comp k m) m.
Proof.
  induction m as [|[k0 v0] m IH]; simpl; [done|].
  destruct (comp k0 k); [by apply sublist_skip|].
  destruct (comp k k0); [done|]. by apply sublist_cons.
Qed.

Lemma subscript_keys k m x :
  x ∈ (subscript comp dflt k m).*1 -> x = k \/ x ∈ m.*1.
Proof.
  induction m as [|[k0 v0] m IH]; simpl.
  - rewrite list_elem_of_singleton. auto.
  - destruct (comp k0 k).
    + simpl. rewrite !elem_of_cons. intros [->|H]; [auto|].
      destruct (IH H); auto.
    + destruct (comp k k0); simpl; rewrite ?elem_of_cons; tauto.
Qed.

Context `{!Comparator comp}.

Lemma eqv_refl k : eqv k k.
Proof. split; apply comp_irrefl. Qed.

Lemma sorted_alter f k m : sorted m -> sorted (alter comp f k m).
Proof. unfold sorted. by rewrite alter_keys. Qed.

Lemma sorted_keys_sublist m m' :
  sublist (m'.*1) (m.*1) -> sorted m -> sorted m'.
Proof.
  unfold sorted. generalize (m.*1) (m'.*1). clear m m'.
  intros l l' Hs. induction Hs as [|x l1 l2 Hs IH|x l1 l2 Hs IH].
  - done.
  - intros [H1 H2]%StronglySorted_inv. constructor; [auto|].
    apply Forall_forall. intros y Hy.
    eapply Forall_forall in H2; [exact H2|]. by eapply elem_of_sublist.
  - intros [H1 H2]%StronglySorted_inv. auto.
Qed.

Lemma sorted_erase k m : sorted m -> sorted (erase comp k m).
Proof. apply sorted_keys_sublist, fmap_sublist, erase_sublist. Qed.

Lemma sorted_subscript k m : sorted m -> sorted (subscript comp dflt k m).
Proof.
  unfold sorted. induction m as [|[k0 v0] m IH]; simpl.
  - intros _. repeat constructor.
  - intros [H1 H2]%StronglySorted_inv.
    destruct (comp k0 k) eqn:E1; simpl.
    + constructor; [auto|]. apply Forall_forall. intros x Hx.
      apply subscript_keys in Hx as [->|Hx]; [done|].
      by eapply Forall_forall in H2.
    + destruct (comp k k0) eqn:E2; simpl.
      * constructor; [by constructor|]. constructor; [done|].
        eapply Forall_impl; [exact H2|]. intros x Hx. simpl in Hx.
        by eapply comp_trans.
      * by constructor.
Qed.

(** The keys of a sorted map are pairwise distinct. *)
Lemma sorted_NoDup m : sorted m -> NoDup (m.*1).
Proof.
  unfold StdMap.sorted. induction 1 as [|x l _ IH Hall]; constructor; [|done].
  intros Hin. eapply Forall_forall in Hall; [|exact Hin].
  by rewrite comp_irrefl in Hall.
Qed.

(** On a sorted map, [find] reaches every entry equivalent to the key. *)
Lemma find_complete k m k' v :
  sorted m -> is_nan k = false ->
  (k', v) ∈ m -> eqv k' k -> find comp k m = Some (k', v).
Proof.
  unfold sorted. intros Hs Hk Hin [He1 He2].
  induction m as [|[k0 v0] m IH]; simpl in *; [by apply elem_of_nil in Hin|].
  apply StronglySorted_inv in Hs as [Hs Hall].
  apply elem_of_cons in Hin as [[= <- <-]|Hin].
  - by rewrite He1, He2.
  - assert (comp k0 k' = true) as Hlt.
    { eapply Forall_forall in Hall; [exact Hall|].
      apply list_elem_of_fmap. by exists (k', v). }
    destruct (comp k0 k) eqn:E1; [auto|].
    pose proof (comp_negtrans k0 k k' Hk E1 He2). congruence.
Qed.

(** The scan for [k] stops at the first entry equivalent to [k]. *)
Lemma at_focus k m1 k' v m2 :
  before k m1 -> eqv k' k ->
  find comp k (m1 ++ (k', v) :: m2) = Some (k', v) /\
  (forall g, alter comp g k (m1 ++ (k', v) :: m2) = m1 ++ (k', g v) :: m2) /\
  erase comp k (m1 ++ (k', v) :: m2) = m1 ++ m2.
Proof.
  intros Hb [He1 He2]. induction m1 as [|[k0 v0] m1 IH]; simpl.
  - by rewrite He1, He2.
  - apply Forall_cons in Hb as [Hlt Hb]. simpl in Hlt. rewrite Hlt.
    destruct (IH Hb) as (-> & Ha & ->). repeat split. intros g. by rewrite Ha.
Qed.

Lemma find_subscript_alter f k m :
  exists m1 m2 k' v,
    alter comp f k (subscript comp dflt k m) = m1 ++ (k', f v) :: m2 /\
    eqv k' k /\ before k m1 /\
    ((m = m1 ++ (k', v) :: m2 /\ find comp k m = Some (k', v)) \/
     (m = m1 ++ m2 /\ k' = k /\ v = dflt /\ find comp k m = None)).
Proof.
  induction m as [|[k0 v0] m IH]; simpl.
  - rewrite comp_irrefl. exists [], [], k, dflt.
    split; [done|]. split; [apply eqv_refl|]. split; [constructor|]. by right.
  - destruct (comp k0 k) eqn:E1; simpl.
    + rewrite E1. destruct IH as (m1 & m2 & k' & v & -> & He & Hb & Hc).
      exists ((k0, v0) :: m1), m2, k', v. split; [done|]. split; [done|].
      split; [by constructor|].
      destruct Hc as [[-> ?]|(-> & ? & ? & ?)]; [left|right]; by repeat split.
    + destruct (comp k k0) eqn:E2; simpl.
      * rewrite comp_irrefl. exists [], ((k0, v0) :: m), k, dflt.
        split; [done|]. split; [apply eqv_refl|]. split; [constructor|]. by right.
      * rewrite E1, E2. exists [], m, k0, v0.
        split; [done|]. split; [done|]. split; [constructor|]. by left.
Qed.
(** *** Lookups at other keys *)

Lemma find_Some_elem k m k' v :
  find comp k m = Some (k', v) -> (k', v) ∈ m /\ eqv k' k.
Proof.
  induction m as [|[k0 v0] m IH]; simpl; [done|].
  destruct (comp k0 k) eqn:E1.
  - intros [Hin He]%IH. split; [by right|done].
  - destruct (comp k k0) eqn:E2; [done|].
    intros [= -> ->]. split; [by left|done].
Qed.

Lemma eqv_sym k1 k2 : eqv k1 k2 -> eqv k2 k1.
Proof. by intros [? ?]. Qed.

Lemma eqv_trans a b c : is_nan b = false -> eqv a b -> eqv b c -> eqv a c.
Proof.
  intros Hb [H1 H2] [H3 H4]. split; by eapply comp_negtrans.
Qed.

(** In a sorted map no entry beside the focus is equivalent to its key. *)
Lemma sorted_focus_unique m1 k v m2 e :
  sorted (m1 ++ (k, v) :: m2) -> e ∈ m1 \/ e ∈ m2 -> ~ eqv e.1 k.
Proof.
  unfold StdMap.sorted. rewrite fmap_app, fmap_cons. simpl.
  intros Hs [Hin|Hin] [He1 He2].
  - assert (comp e.1 k = true) as Hlt; [|congruence].
    eapply (StronglySorted_app_1_elem_of _ _ _ _ _ Hs).
    + apply list_elem_of_fmap. by exists e.
    + by left.
  - apply StronglySorted_app_1_r, StronglySorted_inv in Hs as [_ Hall].
    assert (comp k e.1 = true) as Hlt; [|congruence].
    eapply Forall_forall in Hall; [exact Hall|].
    apply list_elem_of_fmap. by exists e.
Qed.

Lemma find_None_iff k m :
  sorted m -> is_nan k = false ->
  find comp k m = None <-> forall e, e ∈ m -> ~ eqv e.1 k.
Proof.
  intros Hs Hk. split.
  - intros Hf [k' v] Hin He. simpl in He.
    by rewrite (find_complete k m k' v Hs Hk Hin He) in Hf.
  - intros Hno. destruct (find comp k m) as [[k' v]|] eqn:Hf; [|done].
    apply find_Some_elem in Hf as [Hin He]. by destruct (Hno _ Hin).
Qed.

(** Replacing a segment of a sorted map leaves the lookups at the keys
    that are equivalent to no key of the old and the new segment. *)
Lemma find_frame k m1 old new m2 :
  sorted (m1 ++ old ++ m2) -> sorted (m1 ++ new ++ m2) -> is_nan k = false ->
  (forall e, e ∈ old -> ~ eqv e.1 k) ->
  (forall e, e ∈ new -> ~ eqv e.1 k) ->
  find comp k (m1 ++ new ++ m2) = find comp k (m1 ++ old ++ m2).
Proof.
  intros Hs Hs' Hk Hold Hnew.
  destruct (find comp k (m1 ++ old ++ m2)) as [[k' v]|] eqn:Hf.
  - apply find_Some_elem in Hf as [Hin He].
    apply find_complete; [done..| |done].
    revert Hin. rewrite !elem_of_app. intros [?|[Hin|?]]; auto.
    by destruct (Hold _ Hin).
  - apply find_None_iff; [done..|]. intros e Hin.
    rewrite (find_None_iff k _ Hs Hk) in Hf.
    revert Hin. rewrite !elem_of_app. intros [?|[?|?]]; [|by apply Hnew|];
      apply Hf; rewrite !elem_of_app; auto.
Qed.

(** Equivalent keys find the same entry. *)
Lemma find_eqv k k' m :
  sorted m -> is_nan k = false -> is_nan k' = false -> eqv k k' ->
  find comp k' m = find comp k m.
Proof.
  intros Hs Hk Hk' He.
  destruct (find comp k m) as [[k0 v]|] eqn:Hf.
  - apply find_Some_elem in Hf as [Hin He0].
    apply find_complete; [done..|]. by apply (eqv_trans _ k).
  - apply find_None_iff; [done..|]. intros e Hin He'.
    rewrite (find_None_iff k _ Hs Hk) in Hf. apply (Hf e Hin).
    apply (eqv_trans _ k'); [done..|]. by apply eqv_sym.
Qed.

(** Two writes through the same reference compose. *)
Lemma alter_alter f g k m :
  alter comp g k (alter comp f k m) = alter comp (fun v => g (f v)) k m.
Proof.
  induction m as [|[k0 v0] m IH]; simpl; [done|].
  destruct (comp k0 k) eqn:E1; simpl; [by rewrite E1, IH|].
  destruct (comp k k0) eqn:E2; simpl; by rewrite E1, E2.
Qed.

Lemma alter_ext f g k m :
  (forall v, f v = g v) -> alter comp f k m = alter comp g k m.
Proof.
  intros Hfg. induction m as [|[k0 v0] m IH]; simpl; [done|].
  destruct (comp k0 k); [by rewrite IH|].
  destruct (comp k k0); [done|]. by rewrite Hfg.
Qed.

Lemma alter_id k m : alter comp (fun v => v) k m = m.
Proof.
  induction m as [|[k0 v0] m IH]; simpl; [done|].
  destruct (comp k0 k); [by rewrite IH|]. by destruct (comp k k0).
Qed.

End Facts.
End StdMapFacts.

(** ** Facts about the views *)

#[global] Instance side_comp_comparator b : Comparator (side_comp b).
Proof. destruct b; apply _. Qed.

Lemma side_book_of b m other L N : side b (book_of b m other L N) = m.
Proof. by destruct b. Qed.

Lemma side_book_of_neg b m other L N :
  side (negb b) (book_of b m other L N) = other.
Proof. by destruct b. Qed.

Lemma lookup_book_of b m other L N : order_lookup_ (book_of b m other L N) = L.
Proof. by destruct b. Qed.

Lemma nodes_book_of b m other L N : nodes (book_of b m other L N) = N.
Proof. by destruct b. Qed.

Lemma book_of_sides b S :
  book_of b (side b S) (side (negb b) S) (order_lookup_ S) (nodes S) = S.
Proof. by destruct b, S. Qed.

(** A property of both sides of [book_of] follows from its two instances. *)
Lemma book_of_ind b m other L N
    (P : bool -> list (double * PriceLevelData) ->
         list (double * PriceLevelData) -> Prop) :
  P b m other -> P (negb b) other m ->
  forall b', P b' (side b' (book_of b m other L N))
                  (side (negb b') (book_of b m other L N)).
Proof. by destruct b; intros ? ? []. Qed.

Lemma iters_of_app m1 m2 : iters_of (m1 ++ m2) = iters_of m1 ++ iters_of m2.
Proof. unfold iters_of. apply bind_app. Qed.

Lemma iters_of_cons k pl m : iters_of ((k, pl) :: m) = orders pl ++ iters_of m.
Proof. done. Qed.

Lemma elem_of_iters_of it m :
  it ∈ iters_of m <-> exists k pl, (k, pl) ∈ m /\ it ∈ orders pl.
Proof.
  unfold iters_of. rewrite list_elem_of_bind. split.
  - intros ([k pl] & H1 & H2). by exists k, pl.
  - intros (k & pl & H1 & H2). by exists (k, pl).
Qed.

Lemma queued_side b S :
  queued S ≡ₚ iters_of (side b S) ++ iters_of (side (negb b) S).
Proof. destruct b; simpl; [done|]. apply Permutation_app_comm. Qed.

Lemma queue_sum_app N l1 l2 :
  queue_sum N (l1 ++ l2) = queue_sum N l1 + queue_sum N l2.
Proof.
  unfold queue_sum. induction l1 as [|x l1 IH]; csimpl; [done|].
  rewrite IH. lia.
Qed.

Lemma queue_sum_cons N it l : queue_sum N (it :: l) = qty_at N it + queue_sum N l.
Proof. done. Qed.

(** Writing or freeing a node leaves the sums of the queues it is not in. *)
Lemma queue_sum_insert_notin N it n l :
  it ∉ l -> queue_sum (<[it := n]> N) l = queue_sum N l.
Proof.
  unfold queue_sum. induction l as [|x l IH]; csimpl; [done|].
  intros [Hx Hl]%not_elem_of_cons. rewrite IH by done.
  unfold qty_at. by rewrite lookup_insert_ne.
Qed.

Lemma queue_sum_delete_notin N it l :
  it ∉ l -> queue_sum (delete it N) l = queue_sum N l.
Proof.
  unfold queue_sum. induction l as [|x l IH]; csimpl; [done|].
  intros [Hx Hl]%not_elem_of_cons. rewrite IH by done.
  unfold qty_at. by rewrite lookup_delete_ne.
Qed.

Lemma list_erase_split it l :
  it ∈ l ->
  exists l1 l2,
    l = l1 ++ it :: l2 /\ (it ∉ l1) /\ list_erase it l = Some (l1 ++ l2).
Proof.
  induction l as [|x l IH]; [by intros ?%elem_of_nil|].
  simpl. destruct (Pos.eqb_spec x it) as [->|Hne].
  - intros _. exists [], l. repeat split. apply not_elem_of_nil.
  - intros [?|Hin]%elem_of_cons; [congruence|].
    destruct (IH Hin) as (l1 & l2 & -> & Hn & ->).
    exists (x :: l1), l2. repeat split. apply not_elem_of_cons. auto.
Qed.

Lemma wrap64_range z : 0 <= wrap64 z < uint64_max.
Proof. unfold wrap64. apply Z.mod_pos_bound. by compute. Qed.

Lemma wrap64_small z : 0 <= z < uint64_max -> wrap64 z = z.
Proof. apply Z.mod_small. Qed.

Lemma wrap64_add_l a b : wrap64 (wrap64 a + b) = wrap64 (a + b).
Proof. unfold wrap64. by rewrite Zplus_mod_idemp_l. Qed.

Lemma wrap64_sub_l a b : wrap64 (wrap64 a - b) = wrap64 (a - b).
Proof. unfold wrap64. by rewrite Zminus_mod_idemp_l. Qed.

(** ** The empty book satisfies the invariant *)

Lemma book_inv_empty : book_inv empty_book.
Proof.
  split.
  - intros []; constructor.
  - intros [] k pl H; by apply elem_of_nil in H.
  - intros []; constructor.
  - intros [] it H; by apply elem_of_nil in H.
  - intros id loc H. simpl in H. by rewrite lookup_empty in H.
Qed.

(** ** [add_order] preserves the invariant *)

Lemma add_order_book_of o S :
  add_order o S =
  book_of (is_buy o)
    (StdMap.alter (side_comp (is_buy o)) (push_order o (new_node S)) (price o)
       (StdMap.subscript (side_comp (is_buy o)) PriceLevelData_default (price o)
          (side (is_buy o) S)))
    (side (negb (is_buy o)) S)
    (<[order_id o := mkOrderLocation (is_buy o) (price o) (new_node S)]>
       (order_lookup_ S))
    (<[new_node S := mkOrderNode o (new_node S)]> (nodes S)).
Proof. unfold add_order. by destruct (is_buy o). Qed.

Lemma new_node_fresh S : nodes S !! new_node S = None.
Proof. apply not_elem_of_dom. unfold new_node. apply is_fresh. Qed.

Lemma new_node_not_queued S b :
  book_inv S -> new_node S ∉ iters_of (side b S).
Proof.
  intros HS Hin. apply (inv_alloc S HS) in Hin as [n Hn].
  by rewrite new_node_fresh in Hn.
Qed.

Lemma level_ok_insert N it n pl :
  it ∉ orders pl -> level_ok N pl -> level_ok (<[it := n]> N) pl.
Proof. intros Hit [H1 H2]. split; [done|]. by rewrite queue_sum_insert_notin. Qed.

Lemma level_ok_delete N it pl :
  it ∉ orders pl -> level_ok N pl -> level_ok (delete it N) pl.
Proof. intros Hit [H1 H2]. split; [done|]. by rewrite queue_sum_delete_notin. Qed.

(** The shape of the side map [add_order] writes: one entry, possibly
    new, has received the node; its old queue and aggregate are [l0], [t0]. *)
Lemma add_order_side o S :
  book_inv S ->
  let b := is_buy o in
  exists m1 m2 k pl0 old,
    side b (add_order o S) = m1 ++ (k, push_order o (new_node S) pl0) :: m2 /\
    side b S = m1 ++ old ++ m2 /\
    StdMap.eqv (side_comp b) k (price o) /\
    StdMap.before (side_comp b) (price o) m1 /\
    iters_of old = orders pl0 /\
    total_quantity pl0 = wrap64 (queue_sum (nodes S) (orders pl0)) /\
    (old = [(k, pl0)] \/ old = [] /\ k = price o /\ pl0 = PriceLevelData_default).
Proof.
  intros HS b. rewrite add_order_book_of, side_book_of. fold b.
  destruct (StdMapFacts.find_subscript_alter (side_comp b) PriceLevelData_default
              (push_order o (new_node S)) (price o) (side b S))
    as (m1 & m2 & k & pl0 & -> & He & Hb & Hc).
  exists m1, m2, k, pl0.
  destruct Hc as [[Hm Hf]|(Hm & -> & -> & Hf)].
  - exists [(k, pl0)]. repeat split; try done; try apply He.
    + simpl. unfold iters_of. simpl. by rewrite app_nil_r.
    + eapply (inv_levels S HS b k). rewrite Hm. apply elem_of_app. right. by left.
    + by left.
  - exists []. repeat split; try done; try apply He. right. done.
Qed.

Lemma add_order_inv o S :
  book_inv S -> is_nan (price o) = false -> book_inv (add_order o S).
Proof.
  intros HS Hp.
  destruct (add_order_side o S HS)
    as (m1 & m2 & k & pl0 & old & Hm' & Hm & He & _ & Hold & Ht & Hc).
  pose proof (new_node_fresh S) as Hfresh.
  pose proof (fun b => new_node_not_queued S b HS) as Hnq.
  assert (StdMap.sorted (side_comp (is_buy o)) (side (is_buy o) (add_order o S)))
    as Hsorted.
  { rewrite add_order_book_of, side_book_of.
    apply StdMapFacts.sorted_alter, StdMapFacts.sorted_subscript; [apply _|].
    apply (inv_sorted S HS). }
  revert Hm' Hsorted. rewrite add_order_book_of, side_book_of.
  set (b := is_buy o) in *. set (it := new_node S) in *.
  set (N' := <[it := _]> (nodes S)). set (L' := <[order_id o := _]> _).
  intros -> Hsorted.
  set (m' := m1 ++ _ :: m2).
  assert (iters_of m' ≡ₚ it :: iters_of (side b S)) as Hperm.
  { unfold m'. rewrite Hm, !iters_of_app, iters_of_cons, Hold. simpl.
    rewrite <- !app_assoc. simpl. by rewrite <- !Permutation_middle. }
  assert (forall b' k1 pl1, (k1, pl1) ∈ side b' S ->
            exists pl1', (k1, pl1') ∈ side b' (book_of b m' (side (negb b) S) L' N') /\
                         forall i, i ∈ orders pl1 -> i ∈ orders pl1') as Hkeep.
  { intros b'. apply (book_of_ind b m' (side (negb b) S) L' N'
      (fun b' x _ => forall k1 pl1, (k1, pl1) ∈ side b' S ->
         exists pl1', (k1, pl1') ∈ x /\ forall i, i ∈ orders pl1 -> i ∈ orders pl1')).
    - intros k1 pl1. rewrite Hm. unfold m'.
      rewrite !elem_of_app. intros [H|[H|H]].
      + exists pl1. rewrite elem_of_app. auto.
      + destruct Hc as [->|(-> & _)]; [|by apply elem_of_nil in H].
        apply list_elem_of_singleton in H as [= -> ->].
        exists (push_order o it pl0).
        split; [apply elem_of_app; right; by left|].
        intros i Hi. simpl. apply elem_of_app. by left.
      + exists pl1. rewrite elem_of_app, elem_of_cons. auto.
    - intros k1 pl1 H. by exists pl1. }
  split.
  - apply (book_of_ind b m' _ L' N' (fun b' x _ => StdMap.sorted (side_comp b') x)).
    + done.
    + apply (inv_sorted S HS).
  - intros b'. rewrite nodes_book_of. revert b'.
    apply (book_of_ind b m' _ L' N'
      (fun b' x _ => forall k1 pl1, (k1, pl1) ∈ x -> level_ok N' pl1)).
    + intros k1 pl1. unfold m'. rewrite elem_of_app, elem_of_cons.
      assert (forall e, e ∈ m1 \/ e ∈ m2 -> e ∈ side b S) as Hsub.
      { intros e. rewrite Hm, !elem_of_app. tauto. }
      intros [H|[[= -> ->]|H]].
      * apply level_ok_insert; [|by eapply (inv_levels S HS b), Hsub; left].
        intros Hi. apply (Hnq b), elem_of_iters_of. exists k1, pl1. auto.
      * split; [simpl; by destruct (orders pl0)|]. simpl. unfold N'.
        rewrite Ht, wrap64_add_l, queue_sum_app, queue_sum_insert_notin.
        2:{ intros Hi. apply (Hnq b). rewrite Hm, !iters_of_app, Hold.
            rewrite !elem_of_app. auto. }
        f_equal. f_equal. unfold queue_sum, qty_at. simpl.
        rewrite lookup_insert_eq. simpl. lia.
      * apply level_ok_insert; [|by eapply (inv_levels S HS b), Hsub; right].
        intros Hi. apply (Hnq b), elem_of_iters_of. exists k1, pl1. auto.
    + intros k1 pl1 H. apply level_ok_insert; [|by eapply (inv_levels S HS)].
      intros Hi. apply (Hnq (negb b)), elem_of_iters_of. by exists k1, pl1.
  - assert (NoDup (iters_of m' ++ iters_of (side (negb b) S))) as Hnd.
    { rewrite Hperm. simpl. apply NoDup_cons. split; [|apply (inv_nodup S HS)].
      rewrite elem_of_app. intros [H|H]; by eapply Hnq. }
    apply (book_of_ind b m' _ L' N'
      (fun b' x y => NoDup (iters_of x ++ iters_of y))); [done|].
    by rewrite (Permutation_app_comm _ _).
  - intros b'. rewrite nodes_book_of. revert b'.
    apply (book_of_ind b m' _ L' N'
      (fun b' x _ => forall i, i ∈ iters_of x -> is_Some (N' !! i))).
    + intros i. rewrite Hperm, elem_of_cons. unfold N'. intros [->|H].
      * rewrite lookup_insert_eq. eauto.
      * rewrite lookup_insert_ne; [by eapply (inv_alloc S HS)|].
        intros <-. by eapply Hnq.
    + intros i H. unfold N'. rewrite lookup_insert_ne; [by eapply (inv_alloc S HS)|].
      intros <-. by eapply Hnq.
  - intros id loc. rewrite lookup_book_of. unfold L'. rewrite lookup_insert.
    case_decide as Hid.
    + intros [= <-]. subst id. split; [done|]. simpl. fold b.
      exists k, (push_order o it pl0), (mkOrderNode o it).
      rewrite side_book_of, nodes_book_of. unfold m', N'.
      rewrite lookup_insert_eq. split; [|split; [done|split]].
      * apply elem_of_app. right. by left.
      * simpl. apply elem_of_app. right. by left.
      * done.
    + intros Hl. destruct (inv_lookup S HS id loc Hl)
        as (Hn & k1 & pl1 & n & H1 & H2 & H3 & H4 & H5 & H6 & H7).
      split; [done|]. destruct (Hkeep _ _ _ H1) as (pl1' & Hin & Hsub).
      exists k1, pl1', n. rewrite nodes_book_of. unfold N'.
      rewrite lookup_insert_ne; [by auto 10|].
      intros Heq. rewrite <- Heq in H4. congruence.
Qed.

(** ** [cancel_order] on a book that satisfies the invariant *)

Lemma cancel_order_book_of id S :
  cancel_order id S =
  match order_lookup_ S !! id with
  | None => Some (false, S)
  | Some location =>
      let b := loc_is_buy location in
      r ← cancel_in (side_comp b) location S (side b S);
      match r with
      | None => Some (false, S)
      | Some m' =>
          Some (true, book_of b m' (side (negb b) S)
                        (delete id (order_lookup_ S))
                        (delete (loc_list_iter location) (nodes S)))
      end
  end.
Proof.
  unfold cancel_order. destruct (order_lookup_ S !! id) as [loc|]; [|done].
  by destruct (loc_is_buy loc).
Qed.

Lemma iters_of_level_rest k pl l q : iters_of (level_rest k pl l q) = l.
Proof.
  unfold level_rest. destruct l; simpl; [done|].
  unfold iters_of. simpl. by rewrite app_nil_r.
Qed.

Lemma cancel_order_live id loc S :
  book_inv S ->
  order_lookup_ S !! id = Some loc ->
  let b := loc_is_buy loc in
  let it := loc_list_iter loc in
  exists m1 m2 k pl n l1 l2,
    side b S = m1 ++ (k, pl) :: m2 /\
    StdMap.eqv (side_comp b) k (loc_price loc) /\
    orders pl = l1 ++ it :: l2 /\
    nodes S !! it = Some n /\
    order_id (order n) = id /\
    price (order n) = loc_price loc /\
    is_buy (order n) = b /\
    cancel_order id S =
      Some (true,
            book_of b (m1 ++ level_rest k pl (l1 ++ l2) (quantity (order n)) ++ m2)
              (side (negb b) S) (delete id (order_lookup_ S))
              (delete it (nodes S))).
Proof.
  intros HS Hl b it.
  destruct (inv_lookup S HS id loc Hl)
    as (Hn & k & pl & n & Hin & He & Hit & Hnode & Hid & Hprice & Hside).
  fold b in Hin, He, Hside. fold it in Hit, Hnode.
  pose proof (StdMapFacts.find_complete (side_comp b) (loc_price loc) (side b S)
                k pl (inv_sorted S HS b) Hn Hin He) as Hfind.
  destruct (StdMapFacts.find_Some_split (side_comp b) PriceLevelData_default
              _ _ _ _ Hfind) as (m1 & m2 & Hm & _ & Halter & Herase & _).
  destruct (list_erase_split it (orders pl) Hit) as (l1 & l2 & Hord & Hnl1 & Her).
  exists m1, m2, k, pl, n, l1, l2. repeat split; try done; try apply He.
  rewrite cancel_order_book_of, Hl. simpl. fold b it.
  unfold cancel_in. rewrite Hfind. fold it. rewrite Hnode. simpl.
  rewrite Her. simpl. unfold level_rest.
  destruct (is_empty (l1 ++ l2)); simpl.
  - by rewrite Herase.
  - by rewrite Halter.
Qed.

Lemma level_rest_nonempty k pl l q :
  l <> [] ->
  level_rest k pl l q =
  [(k, mkPriceLevelData (lvl_price pl) l (wrap64 (total_quantity pl - q)))].
Proof. unfold level_rest. by destruct l. Qed.

Lemma elem_of_level_rest e k pl l q :
  e ∈ level_rest k pl l q ->
  l <> [] /\
  e = (k, mkPriceLevelData (lvl_price pl) l (wrap64 (total_quantity pl - q))).
Proof.
  unfold level_rest. destruct l; simpl; [by intros ?%elem_of_nil|].
  by intros ->%list_elem_of_singleton.
Qed.

Lemma level_rest_keys k pl (pl0 : PriceLevelData) l q :
  sublist ((level_rest k pl l q).*1) ([(k, pl0)].*1).
Proof.
  unfold level_rest. destruct (is_empty l); simpl.
  - apply sublist_nil_l.
  - done.
Qed.

Lemma cancel_order_absent id S :
  order_lookup_ S !! id = None -> cancel_order id S = Some (false, S).
Proof. intros H. unfold cancel_order. by rewrite H. Qed.

Lemma cancel_order_inv id S r S' :
  book_inv S -> cancel_order id S = Some (r, S') -> book_inv S'.
Proof.
  intros HS. destruct (order_lookup_ S !! id) as [loc|] eqn:Hl.
  2:{ rewrite cancel_order_absent by done. by intros [= _ <-]. }
  destruct (cancel_order_live id loc S HS Hl)
    as (m1 & m2 & k & pl & n & l1 & l2 & Hm & He & Hord & Hnode & Hid & _ & _ & ->).
  intros [= _ <-].
  set (b := loc_is_buy loc) in *. set (it := loc_list_iter loc) in *.
  set (q := quantity (order n)).
  set (m' := m1 ++ level_rest k pl (l1 ++ l2) q ++ m2).
  set (N' := delete it (nodes S)). set (L' := delete id (order_lookup_ S)).
  assert (iters_of (side b S) = iters_of m1 ++ (l1 ++ it :: l2) ++ iters_of m2) as Hit.
  { by rewrite Hm, iters_of_app, iters_of_cons, Hord. }
  assert (iters_of m' = iters_of m1 ++ (l1 ++ l2) ++ iters_of m2) as Hit'.
  { unfold m'. by rewrite !iters_of_app, iters_of_level_rest. }
  assert (sublist (iters_of m') (iters_of (side b S))) as Hsub.
  { rewrite Hit, Hit'. apply sublist_app; [done|]. apply sublist_app; [|done].
    apply sublist_app; [done|]. by apply sublist_cons. }
  assert (iters_of (side b S) ++ iters_of (side (negb b) S) ≡ₚ
          it :: (iters_of m' ++ iters_of (side (negb b) S))) as Hperm.
  { rewrite Hit, Hit', <- !app_assoc. simpl. by rewrite <- !Permutation_middle. }
  pose proof (inv_nodup S HS b) as Hnd. rewrite Hperm in Hnd.
  apply NoDup_cons in Hnd as [Hnotin Hnd'].
  apply not_elem_of_app in Hnotin as [Hn1 Hn2].
  assert (forall b1 k1 pl1, (k1, pl1) ∈ side b1 S ->
            forall i, i ∈ orders pl1 -> i <> it ->
            exists pl1', (k1, pl1') ∈ side b1 (book_of b m' (side (negb b) S) L' N') /\
                         i ∈ orders pl1') as Hkeep.
  { intros b1. apply (book_of_ind b m' (side (negb b) S) L' N'
      (fun b1 x _ => forall k1 pl1, (k1, pl1) ∈ side b1 S ->
         forall i, i ∈ orders pl1 -> i <> it ->
         exists pl1', (k1, pl1') ∈ x /\ i ∈ orders pl1')).
    - intros k1 pl1. rewrite Hm. unfold m'.
      rewrite elem_of_app, elem_of_cons. intros [H|[[= -> ->]|H]] i Hi Hne.
      + exists pl1. rewrite elem_of_app. auto.
      + rewrite Hord in Hi.
        assert (i ∈ l1 ++ l2) as Hi'.
        { revert Hi. rewrite !elem_of_app, elem_of_cons. tauto. }
        rewrite level_rest_nonempty by (intros E; rewrite E in Hi'; by apply elem_of_nil in Hi').
        eexists. split; [apply elem_of_app; right; by left|exact Hi'].
      + exists pl1. rewrite !elem_of_app. auto.
    - intros k1 pl1 H i Hi _. by exists pl1. }
  split.
  - apply (book_of_ind b m' _ L' N' (fun b' x _ => StdMap.sorted (side_comp b') x)).
    + apply (StdMapFacts.sorted_keys_sublist _ (side b S)); [|apply (inv_sorted S HS b)].
      rewrite Hm. unfold m'. rewrite !fmap_app.
      apply sublist_app; [done|]. rewrite fmap_cons.
      apply (sublist_app _ [_]); [|done]. apply (level_rest_keys k pl pl).
    + apply (inv_sorted S HS).
  - intros b'. rewrite nodes_book_of. revert b'.
    apply (book_of_ind b m' _ L' N'
      (fun b' x _ => forall k1 pl1, (k1, pl1) ∈ x -> level_ok N' pl1)).
    + intros k1 pl1 Hin.
      assert (it ∉ orders pl1) as Hn.
      { intros Hi. apply Hn1, elem_of_iters_of. by exists k1, pl1. }
      revert Hin. unfold m'. rewrite !elem_of_app. intros [H|[H|H]].
      * apply level_ok_delete; [done|]. apply (inv_levels S HS b k1).
        rewrite Hm, elem_of_app. auto.
      * apply elem_of_level_rest in H as [Hne [= -> ->]]. simpl in Hn.
        split; [done|]. simpl.
        destruct (inv_levels S HS b k pl) as [_ ->].
        { rewrite Hm, elem_of_app, elem_of_cons. auto. }
        rewrite wrap64_sub_l, Hord. f_equal. unfold N'.
        rewrite queue_sum_delete_notin by done.
        rewrite !queue_sum_app, queue_sum_cons. unfold qty_at at 1.
        rewrite Hnode. fold q. lia.
      * apply level_ok_delete; [done|]. apply (inv_levels S HS b k1).
        rewrite Hm, elem_of_app, elem_of_cons. auto.
    + intros k1 pl1 Hin. apply level_ok_delete; [|by eapply (inv_levels S HS)].
      intros Hi. apply Hn2, elem_of_iters_of. by exists k1, pl1.
  - apply (book_of_ind b m' _ L' N'
      (fun b' x y => NoDup (iters_of x ++ iters_of y))); [done|].
    by rewrite (Permutation_app_comm _ _).
  - intros b'. rewrite nodes_book_of. revert b'.
    apply (book_of_ind b m' _ L' N'
      (fun b' x _ => forall i, i ∈ iters_of x -> is_Some (N' !! i))).
    + intros i Hi. unfold N'. rewrite lookup_delete_ne by (by intros <-).
      apply (inv_alloc S HS b). by eapply elem_of_sublist.
    + intros i Hi. unfold N'. rewrite lookup_delete_ne by (by intros <-).
      by apply (inv_alloc S HS (negb b)).
  - intros id' loc'. rewrite lookup_book_of. unfold L'. rewrite lookup_delete.
    case_decide as Hne; [done|]. intros Hl'.
    destruct (inv_lookup S HS id' loc' Hl')
      as (Hnan & k1 & pl1 & n1 & H1 & H2 & H3 & H4 & H5 & H6 & H7).
    assert (loc_list_iter loc' <> it) as Hneq.
    { intros Heq. rewrite Heq in H4. congruence. }
    split; [done|]. destruct (Hkeep _ _ _ H1 _ H3 Hneq) as (pl1' & Hin & Hi).
    exists k1, pl1', n1. rewrite nodes_book_of. unfold N'.
    rewrite lookup_delete_ne by done. auto 10.
Qed.

(** ** A live order in focus

    For an id present in the order index, the invariant singles out the
    level and the queue position of its node; no other queue of the book
    links that node. *)
Lemma lookup_focus id loc S :
  book_inv S ->
  order_lookup_ S !! id = Some loc ->
  let b := loc_is_buy loc in
  let it := loc_list_iter loc in
  exists m1 m2 k pl n l1 l2,
    side b S = m1 ++ (k, pl) :: m2 /\
    orders pl = l1 ++ it :: l2 /\
    nodes S !! it = Some n /\
    StdMap.find (side_comp b) (loc_price loc) (side b S) = Some (k, pl) /\
    (forall f, StdMap.alter (side_comp b) f (loc_price loc) (side b S)
               = m1 ++ (k, f pl) :: m2) /\
    (it ∉ iters_of m1 ++ l1 ++ l2 ++ iters_of m2 ++ iters_of (side (negb b) S)) /\
    order_id (order n) = id /\
    price (order n) = loc_price loc /\
    is_buy (order n) = b.
Proof.
  intros HS Hl b it.
  destruct (inv_lookup S HS id loc Hl)
    as (Hn & k & pl & n & Hin & He & Hit & Hnode & Hid & Hprice & Hside).
  fold b in Hin, He, Hside. fold it in Hit, Hnode.
  pose proof (StdMapFacts.find_complete (side_comp b) (loc_price loc) (side b S)
                k pl (inv_sorted S HS b) Hn Hin He) as Hfind.
  destruct (StdMapFacts.find_Some_split (side_comp b) PriceLevelData_default
              _ _ _ _ Hfind) as (m1 & m2 & Hm & _ & Halter & _ & _).
  destruct (list_erase_split it (orders pl) Hit) as (l1 & l2 & Hord & _ & _).
  exists m1, m2, k, pl, n, l1, l2. repeat split; try done.
  pose proof (inv_nodup S HS b) as Hnd.
  rewrite Hm, iters_of_app, iters_of_cons, Hord, <- !app_assoc in Hnd.
  simpl in Hnd. rewrite <- !Permutation_middle in Hnd.
  by apply NoDup_cons in Hnd as [Hnotin _].
Qed.

(** ** [amend_order] on a book that satisfies the invariant *)

Lemma amend_order_absent id p q S :
  order_lookup_ S !! id = None -> amend_order id p q S = Some (false, S).
Proof. intros H. unfold amend_order. by rewrite H. Qed.

Lemma amend_order_in_place id loc n p q S :
  book_inv S ->
  order_lookup_ S !! id = Some loc ->
  nodes S !! loc_list_iter loc = Some n ->
  double_ne (price (order n)) p = false ->
  let b := loc_is_buy loc in
  amend_order id p q S =
    Some (true,
          book_of b
            (StdMap.alter (side_comp b) (amend_level (quantity (order n)) q)
               (loc_price loc) (side b S))
            (side (negb b) S) (order_lookup_ S)
            (<[loc_list_iter loc :=
                 mkOrderNode (amend_quantity (order n) q) (list_iter n)]> (nodes S))).
Proof.
  intros HS Hl Hnode Hne b.
  destruct (lookup_focus id loc S HS Hl)
    as (m1 & m2 & k & pl & n' & l1 & l2 & Hm & Hord & Hnode' & Hfind & _).
  unfold amend_order. rewrite Hl. simpl. rewrite Hnode. simpl. rewrite Hne.
  unfold amend_in. subst b. revert Hfind.
  destruct (loc_is_buy loc); simpl; by intros ->.
Qed.

Lemma amend_order_reprice id loc n p q S :
  book_inv S ->
  order_lookup_ S !! id = Some loc ->
  nodes S !! loc_list_iter loc = Some n ->
  double_ne (price (order n)) p = true ->
  exists S1,
    cancel_order id S = Some (true, S1) /\
    amend_order id p q S = Some (true, add_order (amend_price (order n) p q) S1).
Proof.
  intros HS Hl Hnode Hne.
  destruct (cancel_order_live id loc S HS Hl)
    as (m1 & m2 & k & pl & n' & l1 & l2 & _ & _ & _ & _ & _ & _ & _ & Hc).
  eexists. split; [exact Hc|].
  unfold amend_order. rewrite Hl. simpl. rewrite Hnode. simpl. rewrite Hne.
  by rewrite Hc.
Qed.

Lemma amend_in_place_inv id loc n q S :
  book_inv S ->
  order_lookup_ S !! id = Some loc ->
  nodes S !! loc_list_iter loc = Some n ->
  let b := loc_is_buy loc in
  book_inv
    (book_of b
       (StdMap.alter (side_comp b) (amend_level (quantity (order n)) q)
          (loc_price loc) (side b S))
       (side (negb b) S) (order_lookup_ S)
       (<[loc_list_iter loc :=
            mkOrderNode (amend_quantity (order n) q) (list_iter n)]> (nodes S))).
Proof.
  intros HS Hl Hnode b.
  destruct (lookup_focus id loc S HS Hl)
    as (m1 & m2 & k & pl & n' & l1 & l2 & Hm & Hord & Hnode' & _ & Halter
        & Hnotin & Hid & Hprice & Hside).
  fold b in Hm, Halter, Hnotin, Hside. rewrite Hnode in Hnode'.
  injection Hnode' as <-. rewrite Halter. clear Halter.
  set (it := loc_list_iter loc) in *. set (qo := quantity (order n)).
  set (m' := m1 ++ _ :: m2). set (N' := <[it := _]> (nodes S)).
  set (L := order_lookup_ S).
  revert Hnotin. rewrite !not_elem_of_app. intros (Hn1 & Hn2 & Hn3 & Hn4 & Hn5).
  assert (iters_of m' = iters_of (side b S)) as Hit.
  { unfold m'. by rewrite Hm, !iters_of_app, !iters_of_cons. }
  assert (forall e, e ∈ m1 \/ e ∈ m2 -> e ∈ side b S) as Hsub.
  { intros e. rewrite Hm, elem_of_app, elem_of_cons. tauto. }
  assert (forall k1 pl1, (k1, pl1) ∈ m1 \/ (k1, pl1) ∈ m2 \/
                         (k1, pl1) ∈ side (negb b) S -> it ∉ orders pl1) as Hfar.
  { intros k1 pl1 [H|[H|H]] Hi.
    - apply Hn1, elem_of_iters_of. by exists k1, pl1.
    - apply Hn4, elem_of_iters_of. by exists k1, pl1.
    - apply Hn5, elem_of_iters_of. by exists k1, pl1. }
  split.
  - apply (book_of_ind b m' _ L N' (fun b' x _ => StdMap.sorted (side_comp b') x)).
    + apply (StdMapFacts.sorted_keys_sublist _ (side b S)); [|apply (inv_sorted S HS b)].
      rewrite Hm. unfold m'. by rewrite !fmap_app, !fmap_cons.
    + apply (inv_sorted S HS).
  - intros b'. rewrite nodes_book_of. revert b'.
    apply (book_of_ind b m' _ L N'
      (fun b' x _ => forall k1 pl1, (k1, pl1) ∈ x -> level_ok N' pl1)).
    + intros k1 pl1. unfold m'. rewrite elem_of_app, elem_of_cons.
      intros [H|[[= -> ->]|H]].
      * apply level_ok_insert; [apply (Hfar k1 pl1); auto|].
        apply (inv_levels S HS b k1). auto.
      * destruct (inv_levels S HS b k pl) as [Hne Ht].
        { rewrite Hm, elem_of_app, elem_of_cons. auto. }
        split; [done|]. simpl. rewrite Ht, wrap64_sub_l, wrap64_add_l, Hord.
        f_equal. unfold N'. rewrite !queue_sum_app, !queue_sum_cons.
        rewrite !queue_sum_insert_notin by done.
        unfold qty_at. rewrite lookup_insert_eq, Hnode. simpl. fold qo. lia.
      * apply level_ok_insert; [apply (Hfar k1 pl1); auto|].
        apply (inv_levels S HS b k1). auto.
    + intros k1 pl1 H. apply level_ok_insert; [apply (Hfar k1 pl1); auto|].
      by apply (inv_levels S HS (negb b) k1).
  - apply (book_of_ind b m' _ L N'
      (fun b' x y => NoDup (iters_of x ++ iters_of y))).
    + rewrite Hit. apply (inv_nodup S HS).
    + rewrite Hit, (Permutation_app_comm _ _). apply (inv_nodup S HS).
  - intros b'. rewrite nodes_book_of. revert b'.
    assert (forall b' i, i ∈ iters_of (side b' S) -> is_Some (N' !! i)) as Hal.
    { intros b' i Hi. unfold N'. rewrite lookup_insert. case_decide; [eauto|].
      by eapply (inv_alloc S HS). }
    apply (book_of_ind b m' _ L N'
      (fun b' x _ => forall i, i ∈ iters_of x -> is_Some (N' !! i))).
    + intros i. rewrite Hit. apply Hal.
    + apply Hal.
  - intros id' loc'. rewrite lookup_book_of. intros Hl'.
    destruct (inv_lookup S HS id' loc' Hl')
      as (Hnan & k1 & pl1 & n1 & H1 & H2 & H3 & H4 & H5 & H6 & H7).
    split; [done|].
    assert (exists pl1', (k1, pl1') ∈
              side (loc_is_buy loc') (book_of b m' (side (negb b) S) L N') /\
              orders pl1' = orders pl1) as (pl1' & Hin & Ho).
    { clear H2 H3 H7. revert k1 pl1 H1. generalize (loc_is_buy loc').
      apply (book_of_ind b m' (side (negb b) S) L N'
        (fun b1 x _ => forall k1 pl1, (k1, pl1) ∈ side b1 S ->
           exists pl1', (k1, pl1') ∈ x /\ orders pl1' = orders pl1)).
      - intros k1 pl1. rewrite Hm. unfold m'. rewrite elem_of_app, elem_of_cons.
        intros [H|[[= -> ->]|H]].
        + exists pl1. rewrite elem_of_app. auto.
        + eexists. split; [apply elem_of_app; right; by left|done].
        + exists pl1. rewrite elem_of_app, elem_of_cons. auto.
      - intros k1 pl1 H. by exists pl1. }
    rewrite nodes_book_of. unfold N'.
    destruct (decide (loc_list_iter loc' = it)) as [Heq|Hneq].
    + rewrite Heq in *. rewrite Hnode in H4. injection H4 as <-.
      exists k1, pl1', (mkOrderNode (amend_quantity (order n) q) (list_iter n)).
      rewrite lookup_insert_eq, Ho. simpl. auto 10.
    + exists k1, pl1', n1. rewrite lookup_insert_ne by done. rewrite Ho. auto 10.
Qed.

(** Every public call that returns leaves the invariant in place. *)
Lemma amend_order_inv id p q S r S' :
  book_inv S -> is_nan p = false ->
  amend_order id p q S = Some (r, S') -> book_inv S'.
Proof.
  intros HS Hp. destruct (order_lookup_ S !! id) as [loc|] eqn:Hl.
  2:{ rewrite amend_order_absent by done. by intros [= _ <-]. }
  destruct (lookup_focus id loc S HS Hl)
    as (_ & _ & _ & _ & n & _ & _ & _ & _ & Hnode & _).
  destruct (double_ne (price (order n)) p) eqn:Hne.
  - destruct (amend_order_reprice id loc n p q S HS Hl Hnode Hne)
      as (S1 & Hc & ->).
    intros [= _ <-]. apply add_order_inv; [|done].
    exact (cancel_order_inv id S true S1 HS Hc).
  - rewrite (amend_order_in_place id loc n p q S HS Hl Hnode Hne).
    intros [= _ <-]. by apply (amend_in_place_inv id).
Qed.

(** ** Reachable books satisfy the invariant *)

Lemma wf_order_price o : wf_order o = true -> is_nan (price o) = false.
Proof.
  unfold wf_order. rewrite !andb_true_iff, negb_true_iff. tauto.
Qed.

Lemma reachable_with_inv f S : reachable_with f S -> book_inv S.
Proof.
  induction 1 as [|o S _ IH Hwf _|id S r S' _ IH _ Hc|id p q S r S' _ IH _ Hp _ Ha
                  |d bids asks S _ IH].
  - apply book_inv_empty.
  - apply add_order_inv; [done|]. by apply wf_order_price.
  - by eapply cancel_order_inv.
  - by eapply amend_order_inv.
  - done.
Qed.

Lemma reachable_fresh_reachable S : reachable_fresh S -> reachable S.
Proof.
  induction 1 as [|o S _ IH Hwf _|id S r S' _ IH Hid Hc
                  |id p q S r S' _ IH Hid Hp Hq Ha|d bids asks S _ IH].
  - apply reach_empty.
  - apply reach_add; [exact IH|exact Hwf|discriminate].
  - exact (reach_cancel false id S r S' IH Hid Hc).
  - exact (reach_amend false id p q S r S' IH Hid Hp Hq Ha).
  - exact IH.
Qed.

(** ** The book of the test driver is reachable *)

Lemma demo_book_reachable : reachable_fresh demo_book.
Proof.
  change demo_book with (add_all demo_orders empty_book).
  unfold add_all, demo_orders. simpl.
  repeat (apply reach_add; [|reflexivity|intros _; vm_compute; reflexivity]).
  apply reach_empty.
Defined.

(** ** Snapshot *)

Lemma collect_take depth count m out :
  collect depth count m out = out ++ (summary <$> take (depth - count) m).
Proof.
  revert count out. induction m as [|[p pl] m IH]; intros count out; simpl.
  - by rewrite take_nil, app_nil_r.
  - destruct (Nat.leb_spec depth count) as [Hle|Hlt].
    + replace (depth - count)%nat with 0%nat by lia. by rewrite app_nil_r.
    + rewrite IH. replace (depth - count)%nat with (S (depth - S count)) by lia.
      simpl. by rewrite <- app_assoc.
Qed.

Lemma get_snapshot_take depth bids asks S :
  get_snapshot depth bids asks S =
  (S, (summary <$> take depth (bids_ S), summary <$> take depth (asks_ S))).
Proof. unfold get_snapshot. by rewrite !collect_take, !Nat.sub_0_r. Qed.

(** The levels of a side of a reachable book have distinct prices, so the
    length of a side map is its number of distinct price levels. *)
Lemma reachable_levels_distinct S b :
  reachable S -> NoDup ((side b S).*1).
Proof.
  intros HS%reachable_with_inv.
  apply (StdMapFacts.sorted_NoDup (side_comp b)), (inv_sorted S HS b).
Qed.

(** C7: [get_snapshot] leaves the book as it was and fills each vector with
    the summaries (price and aggregate) of the first [depth] levels of the
    side map in iteration order: [min depth (number of levels)] of them,
    whatever the vectors held before; it is a total function. *)
Theorem get_snapshot_first_levels depth bids asks S :
  let r := get_snapshot depth bids asks S in
  r.1 = S /\
  r.2.1 = summary <$> take depth (bids_ S) /\
  r.2.2 = summary <$> take depth (asks_ S) /\
  length r.2.1 = Nat.min depth (length (bids_ S)) /\
  length r.2.2 = Nat.min depth (length (asks_ S)).
Proof.
  intros r. unfold r. rewrite get_snapshot_take. simpl.
  by rewrite !length_fmap, !length_take.
Qed.

Lemma sorted_summary comp (m : list (double * PriceLevelData)) depth :
  StdMap.sorted comp m ->
  StronglySorted (fun a b => comp (pl_price a) (pl_price b) = true)
    (summary <$> take depth m).
Proof.
  unfold StdMap.sorted. revert depth.
  induction m as [|e m IH]; intros depth; [by rewrite take_nil; constructor|].
  destruct depth as [|depth]; [constructor|].
  rewrite fmap_cons. intros [H1 H2]%StronglySorted_inv. simpl.
  constructor; [by apply IH|].
  apply Forall_fmap, Forall_forall. intros e' He'. simpl.
  eapply Forall_forall in H2; [exact H2|].
  apply list_elem_of_fmap. exists e'. split; [done|].
  eapply elem_of_sublist; [exact He'|]. apply sublist_take.
Qed.

(** C8: in every reachable book and for every depth, the bids of a snapshot
    are strictly descending by price and the asks strictly ascending. *)
Theorem snapshot_strictly_ordered depth bids asks S :
  reachable S ->
  strictly_descending (get_snapshot depth bids asks S).2.1 /\
  strictly_ascending (get_snapshot depth bids asks S).2.2.
Proof.
  intros HS%reachable_with_inv. rewrite get_snapshot_take. simpl.
  split.
  - apply (sorted_summary greater), (inv_sorted S HS true).
  - apply (sorted_summary less), (inv_sorted S HS false).
Qed.

Lemma snapshot_strictly_ordered_demo :
  strictly_descending (get_snapshot 5 [] [] demo_book).2.1 /\
  strictly_ascending (get_snapshot 5 [] [] demo_book).2.2.
Proof.
  apply (snapshot_strictly_ordered 5 [] [] demo_book).
  apply reachable_fresh_reachable, demo_book_reachable.
Defined.

(** ** Failure of cancel and amend *)

(** C4: on a reachable book, [cancel_order] and [amend_order] return, they
    return [false] exactly when the id has no entry in the order index,
    and a call that returns [false] leaves the book as it was. *)
Theorem cancel_amend_fail_iff_absent S id p q :
  reachable S ->
  (exists r S', cancel_order id S = Some (r, S') /\
     (r = false <-> order_lookup_ S !! id = None) /\ (r = false -> S' = S)) /\
  (exists r S', amend_order id p q S = Some (r, S') /\
     (r = false <-> order_lookup_ S !! id = None) /\ (r = false -> S' = S)).
Proof.
  intros HS%reachable_with_inv.
  destruct (order_lookup_ S !! id) as [loc|] eqn:Hl.
  - destruct (cancel_order_live id loc S HS Hl)
      as (m1 & m2 & k & pl & n & l1 & l2 & _ & _ & _ & Hnode & _ & _ & _ & Hc).
    split.
    + eexists true, _. split; [exact Hc|]. by split.
    + destruct (double_ne (price (order n)) p) eqn:Hne.
      * destruct (amend_order_reprice id loc n p q S HS Hl Hnode Hne)
          as (S1 & _ & Ha).
        eexists true, _. split; [exact Ha|]. by split.
      * eexists true, _.
        split; [exact (amend_order_in_place id loc n p q S HS Hl Hnode Hne)|].
        by split.
  - split; exists false, S.
    + split; [by apply cancel_order_absent|]. by split.
    + split; [by apply amend_order_absent|]. by split.
Qed.

Lemma cancel_amend_fail_iff_absent_demo :
  (exists r S', cancel_order 999 demo_book = Some (r, S') /\
     (r = false <-> order_lookup_ demo_book !! 999 = None) /\
     (r = false -> S' = demo_book)) /\
  (exists r S', amend_order 999 (double_of_Z 100) 10 demo_book = Some (r, S') /\
     (r = false <-> order_lookup_ demo_book !! 999 = None) /\
     (r = false -> S' = demo_book)).
Proof.
  apply (cancel_amend_fail_iff_absent demo_book 999 (double_of_Z 100) 10).
  apply reachable_fresh_reachable, demo_book_reachable.
Defined.

(** ** Amend at an unchanged price *)

Lemma small_book_reachable : reachable_fresh small_book.
Proof.
  change small_book with
    (add_all [ mkOrder 1 true (double_of_Z 100) 1 0;
               mkOrder 2 true (double_of_Z 100) 1 0 ] empty_book).
  unfold add_all. simpl.
  repeat (apply reach_add; [|reflexivity|intros _; vm_compute; reflexivity]).
  apply reach_empty.
Defined.

(** The aggregate is a [uint64_t]: amending order 1 of [small_book] (two
    orders of quantity 1) to quantity 2^64 - 1 wraps it from 2 to 0. *)
Example amend_same_price_wraps :
  reachable small_book /\
  (r ← amend_order 1 (double_of_Z 100) (2 ^ 64 - 1) small_book;
   Some (r.1, (get_snapshot 1 [] [] r.2).2.1)) =
  Some (true, [mkPriceLevel (double_of_Z 100) 0]).
Proof.
  split; [apply reachable_fresh_reachable, small_book_reachable|].
  vm_compute. reflexivity.
Qed.

(** C5, as stated, fails when the new aggregate does not fit 64 bits: on
    [small_book] (two orders of quantity 1 at 100.0, aggregate 2) the call
    [amend_order 1 100.0 (2^64 - 1)] returns [true] and leaves the
    aggregate 0, a change by -2 and not by [new_q - old_q = 2^64 - 2]. *)
Theorem amend_adjusts_exactly_fails :
  reachable small_book /\
  is_uint64 (2 ^ 64 - 1) = true /\
  ~ amend_adjusts_exactly small_book 1 (double_of_Z 100) (2 ^ 64 - 1).
Proof.
  split; [apply reachable_fresh_reachable, small_book_reachable|].
  split; [reflexivity|].
  intros H.
  destruct (H (mkOrderLocation true (double_of_Z 100) 1)
              (mkOrderNode (mkOrder 1 true (double_of_Z 100) 1 0) 1)
              (double_of_Z 100)
              (mkPriceLevelData (double_of_Z 100) [1%positive; 2%positive] 2)
              eq_refl eq_refl eq_refl eq_refl)
    as (S' & k' & pl' & Ha & Hf & Hq).
  vm_compute in Ha. injection Ha as <-.
  vm_compute in Hf. injection Hf as <- <-.
  vm_compute in Hq. discriminate Hq.
Qed.

(** C5 (amended): for a live order [id] whose price equals [p], the call
    [amend_order id p new_q] succeeds; the order's node keeps its place in
    the queue of its level and gets quantity [new_q]; the level's aggregate
    becomes [total - old_q + new_q] modulo 2^64, which is a change by
    exactly [new_q - old_q] whenever that value fits 64 bits; the other
    levels, the other side, the order index and the other nodes are
    unchanged. *)
Theorem amend_same_price S id loc n p new_q :
  reachable S ->
  order_lookup_ S !! id = Some loc ->
  nodes S !! loc_list_iter loc = Some n ->
  double_ne (price (order n)) p = false ->
  let b := loc_is_buy loc in
  let it := loc_list_iter loc in
  let old_q := quantity (order n) in
  exists S' m1 m2 k pl pl',
    amend_order id p new_q S = Some (true, S') /\
    side b S = m1 ++ (k, pl) :: m2 /\
    side b S' = m1 ++ (k, pl') :: m2 /\
    it ∈ orders pl /\
    orders pl' = orders pl /\
    lvl_price pl' = lvl_price pl /\
    total_quantity pl' = wrap64 (total_quantity pl - old_q + new_q) /\
    (0 <= total_quantity pl - old_q + new_q < uint64_max ->
     total_quantity pl' - total_quantity pl = new_q - old_q) /\
    side (negb b) S' = side (negb b) S /\
    order_lookup_ S' = order_lookup_ S /\
    nodes S' = <[it := mkOrderNode (amend_quantity (order n) new_q) (list_iter n)]>
                 (nodes S).
Proof.
  intros HS%reachable_with_inv Hl Hnode Hne b it old_q.
  destruct (lookup_focus id loc S HS Hl)
    as (m1 & m2 & k & pl & n' & l1 & l2 & Hm & Hord & Hnode' & _ & Halter & _).
  fold b it in Hm, Hord, Halter.
  eexists _, m1, m2, k, pl, _.
  split; [exact (amend_order_in_place id loc n p new_q S HS Hl Hnode Hne)|].
  fold b it. rewrite side_book_of, side_book_of_neg, lookup_book_of, nodes_book_of.
  rewrite Halter. fold old_q.
  assert (total_quantity (amend_level old_q new_q pl) =
          wrap64 (total_quantity pl - old_q + new_q)) as Ht.
  { simpl. by rewrite wrap64_add_l. }
  split; [done|]. split; [done|].
  split; [rewrite Hord, elem_of_app, elem_of_cons; auto|].
  split; [done|]. split; [done|]. split; [exact Ht|].
  split; [|done].
  intros Hr. rewrite Ht, wrap64_small by done. lia.
Qed.

Lemma amend_same_price_demo :
  exists S' m1 m2 k pl pl',
    amend_order 1 (double_of_Z 100) 75 demo_book = Some (true, S') /\
    side true demo_book = m1 ++ (k, pl) :: m2 /\
    side true S' = m1 ++ (k, pl') :: m2 /\
    1%positive ∈ orders pl /\
    orders pl' = orders pl /\
    lvl_price pl' = lvl_price pl /\
    total_quantity pl' = wrap64 (total_quantity pl - 50 + 75) /\
    (0 <= total_quantity pl - 50 + 75 < uint64_max ->
     total_quantity pl' - total_quantity pl = 75 - 50) /\
    side false S' = side false demo_book /\
    order_lookup_ S' = order_lookup_ demo_book /\
    nodes S' =
      <[1%positive :=
          mkOrderNode (mkOrder 1 true (double_of_Z 100) 75 1000) 1]>
        (nodes demo_book).
Proof.
  apply (amend_same_price demo_book 1
           (mkOrderLocation true (double_of_Z 100) 1)
           (mkOrderNode (mkOrder 1 true (double_of_Z 100) 50 1000) 1)
           (double_of_Z 100) 75).
  - apply reachable_fresh_reachable, demo_book_reachable.
  - vm_compute. reflexivity.
  - vm_compute. reflexivity.
  - vm_compute. reflexivity.
Defined.

(** ** Amend at a new price *)

(** Where [add_order] puts the order: the index entry of its id locates
    the new node, which is the last of the queue of the level found at the
    order's price. *)
Lemma add_order_placed o S :
  let S' := add_order o S in
  let it := new_node S in
  order_lookup_ S' !! order_id o = Some (mkOrderLocation (is_buy o) (price o) it) /\
  nodes S' !! it = Some (mkOrderNode o it) /\
  exists k pl,
    StdMap.find (side_comp (is_buy o)) (price o) (side (is_buy o) S') = Some (k, pl) /\
    last (orders pl) = Some it.
Proof.
  simpl. rewrite add_order_book_of, lookup_book_of, nodes_book_of, side_book_of.
  rewrite !lookup_insert_eq. split; [done|]. split; [done|].
  destruct (StdMapFacts.find_subscript_alter (side_comp (is_buy o))
              PriceLevelData_default (push_order o (new_node S)) (price o)
              (side (is_buy o) S))
    as (m1 & m2 & k & pl0 & -> & He & Hb & _).
  destruct (StdMapFacts.at_focus (side_comp (is_buy o)) (price o) m1 k
              (push_order o (new_node S) pl0) m2 Hb He) as (-> & _).
  eexists _, _. split; [done|]. simpl. apply last_snoc.
Qed.

(** C6: for a live order [id] and a new price different from its price,
    [amend_order] leaves the book that [cancel_order id] followed by
    [add_order] of the order with the same id and side, the new price and
    the new quantity (and the timestamp of the amended order) leaves; the
    order is then the last of the queue of the level at the new price. *)
Theorem amend_new_price_is_cancel_then_add S id loc n new_price new_q :
  reachable S ->
  order_lookup_ S !! id = Some loc ->
  nodes S !! loc_list_iter loc = Some n ->
  double_ne (price (order n)) new_price = true ->
  exists S1 S',
    cancel_order id S = Some (true, S1) /\
    S' = add_order (mkOrder id (loc_is_buy loc) new_price new_q
                            (timestamp_ns (order n))) S1 /\
    amend_order id new_price new_q S = Some (true, S') /\
    exists loc' k pl,
      order_lookup_ S' !! id = Some loc' /\
      StdMap.find (side_comp (loc_is_buy loc)) new_price
        (side (loc_is_buy loc) S') = Some (k, pl) /\
      last (orders pl) = Some (loc_list_iter loc').
Proof.
  intros HS%reachable_with_inv Hl Hnode Hne.
  destruct (lookup_focus id loc S HS Hl)
    as (_ & _ & _ & _ & n' & _ & _ & _ & _ & Hnode' & _ & _ & _ & Hid & _ & Hside).
  rewrite Hnode in Hnode'. injection Hnode' as <-.
  destruct (amend_order_reprice id loc n new_price new_q S HS Hl Hnode Hne)
    as (S1 & Hc & Ha).
  unfold amend_price in Ha. rewrite Hid, Hside in Ha.
  eexists S1, _. split; [exact Hc|]. split; [reflexivity|]. split; [exact Ha|].
  set (o := mkOrder id _ _ _ _).
  destruct (add_order_placed o S1) as (Hl' & _ & k & pl & Hf & Hlast).
  eexists _, k, pl. split; [exact Hl'|]. by split.
Qed.

Lemma amend_new_price_is_cancel_then_add_demo :
  exists S1 S',
    cancel_order 1 demo_book = Some (true, S1) /\
    S' = add_order (mkOrder 1 true (double_of_Z 99) 75 1000) S1 /\
    amend_order 1 (double_of_Z 99) 75 demo_book = Some (true, S') /\
    exists loc' k pl,
      order_lookup_ S' !! 1 = Some loc' /\
      StdMap.find greater (double_of_Z 99) (bids_ S') = Some (k, pl) /\
      last (orders pl) = Some (loc_list_iter loc').
Proof.
  apply (amend_new_price_is_cancel_then_add demo_book 1
           (mkOrderLocation true (double_of_Z 100) 1)
           (mkOrderNode (mkOrder 1 true (double_of_Z 100) 50 1000) 1)
           (double_of_Z 99) 75).
  - apply reachable_fresh_reachable, demo_book_reachable.
  - vm_compute. reflexivity.
  - vm_compute. reflexivity.
  - vm_compute. reflexivity.
Defined.

(** C10: a price-changing amend of a live order re-inserts an order with
    the side and the timestamp (and the id) of the amended one; only the
    price and the quantity are new. *)
Theorem amend_new_price_keeps_side_and_timestamp S id loc n new_price new_q :
  reachable S ->
  order_lookup_ S !! id = Some loc ->
  nodes S !! loc_list_iter loc = Some n ->
  double_ne (price (order n)) new_price = true ->
  exists S' loc' n',
    amend_order id new_price new_q S = Some (true, S') /\
    order_lookup_ S' !! id = Some loc' /\
    nodes S' !! loc_list_iter loc' = Some n' /\
    is_buy (order n') = is_buy (order n) /\
    timestamp_ns (order n') = timestamp_ns (order n) /\
    order_id (order n') = order_id (order n) /\
    price (order n') = new_price /\
    quantity (order n') = new_q /\
    loc_is_buy loc' = loc_is_buy loc /\
    loc_price loc' = new_price.
Proof.
  intros HS%reachable_with_inv Hl Hnode Hne.
  destruct (lookup_focus id loc S HS Hl)
    as (_ & _ & _ & _ & n' & _ & _ & _ & _ & Hnode' & _ & _ & _ & Hid & _ & Hside).
  rewrite Hnode in Hnode'. injection Hnode' as <-.
  destruct (amend_order_reprice id loc n new_price new_q S HS Hl Hnode Hne)
    as (S1 & Hc & Ha).
  destruct (add_order_placed (amend_price (order n) new_price new_q) S1)
    as (Hl' & Hn' & _).
  simpl in Hl'. rewrite Hid in Hl'.
  eexists _, _, _. split; [exact Ha|]. split; [exact Hl'|].
  split; [exact Hn'|]. simpl. by repeat split.
Qed.

Lemma amend_new_price_keeps_side_and_timestamp_demo :
  exists S' loc' n',
    amend_order 4 (double_of_Z 103) 45 demo_book = Some (true, S') /\
    order_lookup_ S' !! 4 = Some loc' /\
    nodes S' !! loc_list_iter loc' = Some n' /\
    is_buy (order n') = false /\
    timestamp_ns (order n') = 1003 /\
    order_id (order n') = 4 /\
    price (order n') = double_of_Z 103 /\
    quantity (order n') = 45 /\
    loc_is_buy loc' = false /\
    loc_price loc' = double_of_Z 103.
Proof.
  apply (amend_new_price_keeps_side_and_timestamp demo_book 4
           (mkOrderLocation false (double_of_Z 101) 4)
           (mkOrderNode (mkOrder 4 false (double_of_Z 101) 40 1003) 4)
           (double_of_Z 103) 45).
  - apply reachable_fresh_reachable, demo_book_reachable.
  - vm_compute. reflexivity.
  - vm_compute. reflexivity.
  - vm_compute. reflexivity.
Defined.

(** ** Add then cancel *)

Lemma list_erase_snoc it l : it ∉ l -> list_erase it (l ++ [it]) = Some l.
Proof.
  induction l as [|x l IH]; simpl.
  - intros _. by rewrite Pos.eqb_refl.
  - intros [Hne Hl]%not_elem_of_cons.
    destruct (Pos.eqb_spec x it) as [->|_]; [done|]. by rewrite IH.
Qed.

(** Adding an order under an id that is not live and cancelling that id
    brings back the order index, the nodes, the other side, and the keys,
    queues and aggregates of the order's side. *)
Lemma add_then_cancel o S :
  book_inv S ->
  order_lookup_ S !! order_id o = None ->
  let b := is_buy o in
  exists S',
    cancel_order (order_id o) (add_order o S) = Some (true, S') /\
    summary <$> side b S' = summary <$> side b S /\
    side (negb b) S' = side (negb b) S /\
    order_lookup_ S' = order_lookup_ S /\
    nodes S' = nodes S.
Proof.
  intros HS Hl b.
  destruct (add_order_side o S HS)
    as (m1 & m2 & k & pl0 & old & Hm' & Hm & He & Hb & Hold & Ht & Hc).
  fold b in Hm', Hm, He, Hb.
  destruct (StdMapFacts.at_focus (side_comp b) (price o) m1 k
              (push_order o (new_node S) pl0) m2 Hb He) as (Hfind & Halter & Herase).
  assert (new_node S ∉ orders pl0) as Hfresh.
  { intros Hin. apply (new_node_not_queued S b HS).
    rewrite Hm, !iters_of_app, Hold, !elem_of_app. auto. }
  assert (side (negb b) (add_order o S) = side (negb b) S) as Hother.
  { rewrite add_order_book_of. apply side_book_of_neg. }
  assert (order_lookup_ (add_order o S) =
          <[order_id o := mkOrderLocation b (price o) (new_node S)]>
            (order_lookup_ S)) as HL.
  { rewrite add_order_book_of. apply lookup_book_of. }
  assert (nodes (add_order o S) =
          <[new_node S := mkOrderNode o (new_node S)]> (nodes S)) as HN.
  { rewrite add_order_book_of. apply nodes_book_of. }
  rewrite cancel_order_book_of, HL, lookup_insert_eq. simpl.
  unfold cancel_in. simpl.
  rewrite Hother, Hm', HN. clear Hother Hm' HL HN.
  rewrite Hfind, lookup_insert_eq. simpl.
  rewrite list_erase_snoc by done. simpl.
  rewrite delete_insert_id by done.
  rewrite delete_insert_id by apply new_node_fresh.
  destruct Hc as [->|(-> & -> & ->)].
  - destruct (inv_levels S HS b k pl0) as [Hne _].
    { rewrite Hm, !elem_of_app, list_elem_of_singleton. auto. }
    destruct (orders pl0) as [|x l] eqn:Hord; [done|]. simpl.
    rewrite Halter. eexists. split; [reflexivity|].
    rewrite side_book_of, side_book_of_neg, lookup_book_of, nodes_book_of.
    repeat split. rewrite Hm, !fmap_app. simpl. f_equal. f_equal.
    unfold summary. simpl. f_equal.
    rewrite wrap64_sub_l, Ht. unfold wrap64.
    replace (queue_sum (nodes S) (x :: l) mod uint64_max + quantity o - quantity o)
      with (queue_sum (nodes S) (x :: l) mod uint64_max) by lia.
    apply Zmod_mod.
  - simpl. rewrite Herase. eexists. split; [reflexivity|].
    rewrite side_book_of, side_book_of_neg, lookup_book_of, nodes_book_of.
    by rewrite Hm.
Qed.

(** C9: on a reachable book, [add_order o] for an id that is not live
    followed by [cancel_order] of that id succeeds and leaves a book whose
    snapshot equals, at every depth, the snapshot of the book before. *)
Theorem add_then_cancel_restores_snapshot S o :
  reachable S ->
  wf_order o = true ->
  order_lookup_ S !! order_id o = None ->
  exists S',
    cancel_order (order_id o) (add_order o S) = Some (true, S') /\
    forall depth bids asks bids' asks',
      (get_snapshot depth bids asks S').2 = (get_snapshot depth bids' asks' S).2.
Proof.
  intros HS%reachable_with_inv _ Hl.
  destruct (add_then_cancel o S HS Hl) as (S' & Hc & Hv & Ho & _).
  exists S'. split; [exact Hc|]. intros depth bids asks bids' asks'.
  rewrite !get_snapshot_take. simpl. rewrite !fmap_take.
  destruct (is_buy o); simpl in *; congruence.
Qed.

Lemma add_then_cancel_restores_snapshot_demo :
  exists S',
    cancel_order 7 (add_order (mkOrder 7 true (double_of_Z 100) 25 1006) demo_book)
      = Some (true, S') /\
    forall depth bids asks bids' asks',
      (get_snapshot depth bids asks S').2 =
      (get_snapshot depth bids' asks' demo_book).2.
Proof.
  apply (add_then_cancel_restores_snapshot demo_book
           (mkOrder 7 true (double_of_Z 100) 25 1006)).
  - apply reachable_fresh_reachable, demo_book_reachable.
  - reflexivity.
  - vm_compute. reflexivity.
Defined.

(** ** The effect of the calls on the index, the nodes and the queues *)

Lemma add_order_effect o S :
  book_inv S ->
  order_lookup_ (add_order o S) =
    <[order_id o := mkOrderLocation (is_buy o) (price o) (new_node S)]>
      (order_lookup_ S) /\
  nodes (add_order o S) = <[new_node S := mkOrderNode o (new_node S)]> (nodes S) /\
  queued (add_order o S) ≡ₚ new_node S :: queued S.
Proof.
  intros HS.
  destruct (add_order_side o S HS)
    as (m1 & m2 & k & pl0 & old & Hm' & Hm & _ & _ & Hold & _).
  rewrite (queued_side (is_buy o) (add_order o S)), (queued_side (is_buy o) S).
  rewrite Hm', Hm. rewrite add_order_book_of.
  rewrite lookup_book_of, nodes_book_of, side_book_of_neg.
  split; [done|]. split; [done|].
  rewrite !iters_of_app, iters_of_cons, Hold. simpl.
  rewrite <- !app_assoc. simpl. by rewrite <- !Permutation_middle.
Qed.

Lemma cancel_order_effect id loc S :
  book_inv S ->
  order_lookup_ S !! id = Some loc ->
  exists S',
    cancel_order id S = Some (true, S') /\
    order_lookup_ S' = delete id (order_lookup_ S) /\
    nodes S' = delete (loc_list_iter loc) (nodes S) /\
    queued S ≡ₚ loc_list_iter loc :: queued S'.
Proof.
  intros HS Hl.
  destruct (cancel_order_live id loc S HS Hl)
    as (m1 & m2 & k & pl & n & l1 & l2 & Hm & _ & Hord & _ & _ & _ & _ & Hc).
  eexists. split; [exact Hc|].
  rewrite lookup_book_of, nodes_book_of. split; [done|]. split; [done|].
  rewrite (queued_side (loc_is_buy loc) S), (queued_side (loc_is_buy loc) (book_of _ _ _ _ _)).
  rewrite side_book_of, side_book_of_neg, Hm.
  rewrite !iters_of_app, iters_of_cons, iters_of_level_rest, Hord.
  rewrite <- !app_assoc. simpl. by rewrite <- !Permutation_middle.
Qed.

Lemma amend_in_place_effect id loc n p q S :
  book_inv S ->
  order_lookup_ S !! id = Some loc ->
  nodes S !! loc_list_iter loc = Some n ->
  double_ne (price (order n)) p = false ->
  exists S',
    amend_order id p q S = Some (true, S') /\
    order_lookup_ S' = order_lookup_ S /\
    nodes S' = <[loc_list_iter loc :=
                   mkOrderNode (amend_quantity (order n) q) (list_iter n)]> (nodes S) /\
    queued S' ≡ₚ queued S.
Proof.
  intros HS Hl Hnode Hne.
  destruct (lookup_focus id loc S HS Hl)
    as (m1 & m2 & k & pl & n' & l1 & l2 & Hm & _ & _ & _ & Halter & _).
  eexists. split; [exact (amend_order_in_place id loc n p q S HS Hl Hnode Hne)|].
  rewrite lookup_book_of, nodes_book_of. split; [done|]. split; [done|].
  rewrite (queued_side (loc_is_buy loc) S), (queued_side (loc_is_buy loc) (book_of _ _ _ _ _)).
  rewrite side_book_of, side_book_of_neg, Halter, Hm.
  by rewrite !iters_of_app, !iters_of_cons.
Qed.

(** In a book that satisfies the invariant the queued nodes are pairwise
    distinct and allocated, and an index entry determines its id. *)
Lemma queued_NoDup S : book_inv S -> NoDup (queued S).
Proof. intros HS. rewrite (queued_side true S). apply (inv_nodup S HS true). Qed.

Lemma queued_alloc S it : book_inv S -> it ∈ queued S -> is_Some (nodes S !! it).
Proof.
  intros HS. unfold queued. rewrite elem_of_app.
  intros [H|H]; [apply (inv_alloc S HS true)|apply (inv_alloc S HS false)]; done.
Qed.

Lemma entry_node S id loc :
  book_inv S -> order_lookup_ S !! id = Some loc ->
  exists n, nodes S !! loc_list_iter loc = Some n /\ order_id (order n) = id /\
            loc_list_iter loc ∈ queued S.
Proof.
  intros HS Hl.
  destruct (inv_lookup S HS id loc Hl) as (_ & k & pl & n & Hin & _ & Hit & Hn & Hid & _).
  exists n. split; [done|]. split; [done|].
  rewrite (queued_side (loc_is_buy loc) S), elem_of_app. left.
  apply elem_of_iters_of. by exists k, pl.
Qed.

(** ** No empty levels *)

Lemma one_book_reachable : reachable_fresh one_book.
Proof.
  apply reach_add; [apply reach_empty|reflexivity|intros _; vm_compute; reflexivity].
Defined.





(** ** Adding an id that is already live *)

Lemma filter_key_unique {A} (id : Z) (x : A) (l : list (Z * A)) :
  NoDup (l.*1) -> (id, x) ∈ l -> filter (fun e => e.1 = id) l = [(id, x)].
Proof.
  induction l as [|[k v] l IH]; [by intros _ ?%elem_of_nil|].
  rewrite fmap_cons, NoDup_cons. simpl. intros [Hk Hnd].
  intros [[= <- <-]|Hin]%elem_of_cons.
  - rewrite filter_cons_True by done. f_equal.
    destruct (filter (λ e, e.1 = id) l) as [|[k v] l'] eqn:E; [done|].
    assert ((k, v) ∈ filter (λ e, e.1 = id) l) as Hf by (rewrite E; left).
    apply list_elem_of_filter in Hf as [Hid Hl]. simpl in Hid. subst k.
    destruct Hk. apply list_elem_of_fmap. by exists (id, v).
  - rewrite filter_cons_False; [by apply IH|].
    simpl. intros ->. apply Hk, list_elem_of_fmap. by exists (id, x).
Qed.

Lemma entries_for_lookup id (L : gmap Z OrderLocation) loc :
  L !! id = Some loc -> entries_for id L = [(id, loc)].
Proof.
  intros Hl. apply filter_key_unique.
  - apply NoDup_fst_map_to_list.
  - by apply elem_of_map_to_list.
Qed.

(** C3, as stated, fails: adding id 1 again to [one_book] leaves one entry
    for id 1 in the order index, not two. *)
Lemma duplicate_add_keeps_one_entry :
  reachable one_book /\
  is_Some (order_lookup_ one_book !! 1) /\
  ~ second_entry_created (mkOrder 1 true (double_of_Z 100) 30 1) one_book.
Proof.
  split; [apply reachable_fresh_reachable, one_book_reachable|].
  split; [by eexists|].
  unfold second_entry_created.
  rewrite (entries_for_lookup 1 _ (mkOrderLocation true (double_of_Z 100) 2)).
  - simpl. lia.
  - vm_compute. reflexivity.
Qed.

(** A node that no entry of the index locates is out of reach of every
    call: each of them leaves it queued, with its contents, and unlocated. *)
Lemma orphaned_add o S it n :
  book_inv S -> orphaned S it n -> orphaned (add_order o S) it n.
Proof.
  intros HS (Hq & Hn & Hfree).
  destruct (add_order_effect o S HS) as (HL & HN & HQ).
  assert (new_node S <> it) as Hne.
  { intros Heq. rewrite <- Heq, new_node_fresh in Hn. discriminate. }
  split; [rewrite HQ; by right|].
  split; [by rewrite HN, lookup_insert_ne|].
  intros id l. rewrite HL, lookup_insert. case_decide.
  - by intros [= <-].
  - apply Hfree.
Qed.

Lemma orphaned_cancel id S r S' it n :
  book_inv S -> orphaned S it n ->
  cancel_order id S = Some (r, S') -> orphaned S' it n.
Proof.
  intros HS (Hq & Hn & Hfree) Hc.
  destruct (order_lookup_ S !! id) as [loc|] eqn:Hl.
  - destruct (cancel_order_effect id loc S HS Hl) as (S2 & Hc2 & HL & HN & HQ).
    rewrite Hc2 in Hc. injection Hc as _ <-.
    pose proof (Hfree id loc Hl) as Hne.
    split.
    { rewrite HQ in Hq. apply elem_of_cons in Hq as [?|?]; [congruence|done]. }
    split; [by rewrite HN, lookup_delete_ne|].
    intros id' l'. rewrite HL. intros Hl'.
    apply lookup_delete_Some in Hl' as [_ Hl']. by apply (Hfree id').
  - rewrite cancel_order_absent in Hc by done. injection Hc as _ <-. done.
Qed.

Lemma orphaned_amend id p q S r S' it n :
  book_inv S -> orphaned S it n ->
  amend_order id p q S = Some (r, S') -> orphaned S' it n.
Proof.
  intros HS Ho Ha.
  destruct (order_lookup_ S !! id) as [loc|] eqn:Hl.
  - destruct (entry_node S id loc HS Hl) as (n1 & Hn1 & _ & _).
    destruct (double_ne (price (order n1)) p) eqn:Hp.
    + destruct (amend_order_reprice id loc n1 p q S HS Hl Hn1 Hp) as (S1 & Hc & Ha').
      rewrite Ha' in Ha. injection Ha as _ <-.
      apply orphaned_add.
      * by eapply cancel_order_inv.
      * by eapply orphaned_cancel.
    + destruct (amend_in_place_effect id loc n1 p q S HS Hl Hn1 Hp)
        as (S2 & Ha' & HL & HN & HQ).
      rewrite Ha' in Ha. injection Ha as _ <-.
      destruct Ho as (Hq & Hn & Hfree).
      pose proof (Hfree id loc Hl) as Hne.
      split; [by rewrite HQ|].
      split; [by rewrite HN, lookup_insert_ne|].
      rewrite HL. exact Hfree.
  - rewrite amend_order_absent in Ha by done. injection Ha as _ <-. done.
Qed.

Lemma later_of_orphaned S0 S it n :
  book_inv S0 -> orphaned S0 it n -> later_of S0 S ->
  book_inv S /\ orphaned S it n.
Proof.
  intros HS0 Ho0.
  induction 1 as [|o S _ [HS Ho] Hwf|id S r S' _ [HS Ho] _ Hc
                  |id p q S r S' _ [HS Ho] _ Hp _ Ha|d bids asks S _ IH].
  - done.
  - split; [apply add_order_inv; [done|by apply wf_order_price]|].
    by apply orphaned_add.
  - split; [by eapply cancel_order_inv|by eapply orphaned_cancel].
  - split; [by eapply amend_order_inv|by eapply orphaned_amend].
  - exact IH.
Qed.

(** C3 (amended): [add_order] with an id that is already live is not
    rejected; it overwrites the index entry of that id, which then locates
    the new node, so the index still holds one entry for the id and the
    same set of ids.  The node of the earlier order stays allocated and
    queued and no entry of the index locates it any more; this remains so
    in every book that later calls produce, whatever the calls and their
    ids, so that no [cancel_order] call ever unlinks it. *)
Theorem duplicate_add_overwrites_entry S o loc0 :
  reachable S ->
  wf_order o = true ->
  order_lookup_ S !! order_id o = Some loc0 ->
  let S' := add_order o S in
  let it0 := loc_list_iter loc0 in
  let loc' := mkOrderLocation (is_buy o) (price o) (new_node S) in
  order_lookup_ S' !! order_id o = Some loc' /\
  new_node S <> it0 /\
  entries_for (order_id o) (order_lookup_ S') = [(order_id o, loc')] /\
  dom (order_lookup_ S') = dom (order_lookup_ S) /\
  it0 ∈ queued S' /\
  nodes S' !! it0 = nodes S !! it0 /\
  (forall id' l', order_lookup_ S' !! id' = Some l' -> loc_list_iter l' <> it0) /\
  (forall id' r S'', cancel_order id' S' = Some (r, S'') ->
     it0 ∈ queued S'' /\ nodes S'' !! it0 = nodes S !! it0) /\
  (forall S1, later_of S' S1 ->
     it0 ∈ queued S1 /\
     nodes S1 !! it0 = nodes S !! it0 /\
     (forall id' l', order_lookup_ S1 !! id' = Some l' -> loc_list_iter l' <> it0) /\
     (forall id' r S2, cancel_order id' S1 = Some (r, S2) ->
        it0 ∈ queued S2 /\ nodes S2 !! it0 = nodes S !! it0)).
Proof.
  intros HS%reachable_with_inv Hwf Hl S' it0 loc'.
  pose proof (add_order_inv o S HS (wf_order_price o Hwf)) as HS'. fold S' in HS'.
  destruct (add_order_effect o S HS) as (HL & HN & HQ). fold S' loc' in HL, HN, HQ.
  destruct (entry_node S _ _ HS Hl) as (n0 & Hn0 & Hid0 & Hq0). fold it0 in Hn0, Hq0.
  assert (new_node S <> it0) as Hne.
  { intros Heq. rewrite <- Heq, new_node_fresh in Hn0. discriminate. }
  assert (order_lookup_ S' !! order_id o = Some loc') as Hl'.
  { by rewrite HL, lookup_insert_eq. }
  assert (it0 ∈ queued S') as Hq'.
  { rewrite HQ. by right. }
  assert (nodes S' !! it0 = nodes S !! it0) as Hn'.
  { by rewrite HN, lookup_insert_ne. }
  assert (forall id' l', order_lookup_ S' !! id' = Some l' -> loc_list_iter l' <> it0)
    as Hnone.
  { intros id' l'. rewrite HL, lookup_insert. case_decide as Hid.
    - intros [= <-]. done.
    - intros Hl2 Heq. destruct (entry_node S _ _ HS Hl2) as (n2 & Hn2 & Hid2 & _).
      rewrite Heq, Hn0 in Hn2. congruence. }
  split; [done|]. split; [done|]. split; [by apply entries_for_lookup|].
  split; [rewrite HL; apply dom_insert_lookup_L; eauto|].
  split; [done|]. split; [done|]. split; [done|].
  assert (orphaned S' it0 n0) as Ho' by (by rewrite Hn0 in Hn').
  assert (forall S1, book_inv S1 -> orphaned S1 it0 n0 ->
            forall id' r S2, cancel_order id' S1 = Some (r, S2) ->
              it0 ∈ queued S2 /\ nodes S2 !! it0 = nodes S !! it0) as Hstay.
  { intros S1 HS1 Ho1 id' r S2 Hc.
    destruct (orphaned_cancel id' S1 r S2 it0 n0 HS1 Ho1 Hc) as (? & ? & _).
    split; [done|congruence]. }
  split; [by apply Hstay|].
  intros S1 Hlater.
  destruct (later_of_orphaned S' S1 it0 n0 HS' Ho' Hlater) as [HS1 Ho1].
  pose proof Ho1 as (Hq1 & Hn1 & Hfree1).
  split; [done|]. split; [congruence|]. split; [done|].
  by apply Hstay.
Qed.

Lemma duplicate_add_overwrites_entry_demo :
  let o := mkOrder 1 true (double_of_Z 100) 30 1 in
  let S' := add_order o one_book in
  let loc' := mkOrderLocation true (double_of_Z 100) (new_node one_book) in
  order_lookup_ S' !! 1 = Some loc' /\
  new_node one_book <> 1%positive /\
  entries_for 1 (order_lookup_ S') = [(1, loc')] /\
  dom (order_lookup_ S') = dom (order_lookup_ one_book) /\
  1%positive ∈ queued S' /\
  nodes S' !! 1%positive = nodes one_book !! 1%positive /\
  (forall id' l', order_lookup_ S' !! id' = Some l' -> loc_list_iter l' <> 1%positive) /\
  (forall id' r S'', cancel_order id' S' = Some (r, S'') ->
     1%positive ∈ queued S'' /\ nodes S'' !! 1%positive = nodes one_book !! 1%positive) /\
  (forall S1, later_of S' S1 ->
     1%positive ∈ queued S1 /\
     nodes S1 !! 1%positive = nodes one_book !! 1%positive /\
     (forall id' l', order_lookup_ S1 !! id' = Some l' -> loc_list_iter l' <> 1%positive) /\
     (forall id' r S2, cancel_order id' S1 = Some (r, S2) ->
        1%positive ∈ queued S2 /\ nodes S2 !! 1%positive = nodes one_book !! 1%positive)).
Proof.
  apply (duplicate_add_overwrites_entry one_book
           (mkOrder 1 true (double_of_Z 100) 30 1)
           (mkOrderLocation true (double_of_Z 100) 1)).
  - apply reachable_fresh_reachable, one_book_reachable.
  - reflexivity.
  - vm_compute. reflexivity.
Defined.

(** The earlier order after the two cancels a caller can try: with id 1
    added twice to the empty book, the first [cancel_order 1] unlinks the
    second order, the next one finds no entry and returns [false], and
    the first order is still queued while the index is empty. *)
Example duplicate_add_then_cancel_twice :
  let S' := add_order (mkOrder 1 true (double_of_Z 100) 30 1) one_book in
  exists S1,
    cancel_order 1 S' = Some (true, S1) /\
    cancel_order 1 S1 = Some (false, S1) /\
    queued S1 = [1%positive] /\
    (get_snapshot 1 [] [] S1).2.1 = [mkPriceLevel (double_of_Z 100) 50] /\
    forall id, order_lookup_ S1 !! id = None.
Proof.
  eexists. split; [vm_compute; reflexivity|].
  split; [vm_compute; reflexivity|].
  split; [vm_compute; reflexivity|].
  split; [vm_compute; reflexivity|].
  intros id. vm_compute. reflexivity.
Qed.

(** ** Consistency of the three structures *)

Lemma entry_located S id loc :
  book_inv S -> order_lookup_ S !! id = Some loc ->
  located S (loc_list_iter loc) id.
Proof.
  intros HS Hl.
  destruct (lookup_focus id loc S HS Hl)
    as (m1 & m2 & k & pl & n & l1 & l2 & _ & Hord & _ & Hfind & _).
  exists loc. split; [done|]. split; [done|]. exists k, pl. split; [done|].
  rewrite Hord, elem_of_app, elem_of_cons. auto.
Qed.

Lemma located_unique S it id id' :
  book_inv S -> located S it id -> located S it id' -> id' = id.
Proof.
  intros HS (loc & Hl & Hit & _) (loc' & Hl' & Hit' & _).
  destruct (entry_node S id loc HS Hl) as (n & Hn & Hid & _).
  destruct (entry_node S id' loc' HS Hl') as (n' & Hn' & Hid' & _).
  rewrite Hit in Hn. rewrite Hit' in Hn'. congruence.
Qed.

Lemma indexed_add o S :
  book_inv S -> order_lookup_ S !! order_id o = None ->
  indexed S -> indexed (add_order o S).
Proof.
  intros HS Hfresh IH it.
  destruct (add_order_effect o S HS) as (-> & -> & ->).
  intros [->|Hin]%elem_of_cons.
  - eexists _, _. rewrite lookup_insert_eq. split; [done|]. simpl.
    by rewrite lookup_insert_eq.
  - destruct (IH it Hin) as (n & loc & Hn & Hl & Hit).
    exists n, loc. rewrite !lookup_insert_ne; [done|congruence|].
    intros Heq. rewrite <- Heq, new_node_fresh in Hn. discriminate.
Qed.

Lemma indexed_cancel id S r S' :
  book_inv S -> cancel_order id S = Some (r, S') -> indexed S -> indexed S'.
Proof.
  intros HS Hc IH.
  destruct (order_lookup_ S !! id) as [loc0|] eqn:Hl0.
  2:{ rewrite cancel_order_absent in Hc by done. by injection Hc as _ <-. }
  destruct (cancel_order_effect id loc0 S HS Hl0) as (S2 & Hc2 & HL & HN & HQ).
  rewrite Hc2 in Hc. injection Hc as _ <-.
  pose proof (queued_NoDup S HS) as Hnd. rewrite HQ in Hnd.
  apply NoDup_cons in Hnd as [Hnotin _].
  intros it Hin.
  destruct (IH it) as (n & loc & Hn & Hl & Hit); [rewrite HQ; by right|].
  assert (it <> loc_list_iter loc0) as Hne by (by intros ->).
  exists n, loc. rewrite HL, HN, lookup_delete_ne by done.
  rewrite lookup_delete_ne; [done|]. intros Heq. rewrite <- Heq in Hl. congruence.
Qed.

Lemma indexed_amend id p q S r S' :
  book_inv S -> amend_order id p q S = Some (r, S') -> indexed S -> indexed S'.
Proof.
  intros HS Ha IH.
  destruct (order_lookup_ S !! id) as [loc0|] eqn:Hl0.
  2:{ rewrite amend_order_absent in Ha by done. by injection Ha as _ <-. }
  destruct (entry_node S id loc0 HS Hl0) as (n0 & Hn0 & Hid0 & _).
  destruct (double_ne (price (order n0)) p) eqn:Hne.
  - destruct (amend_order_reprice id loc0 n0 p q S HS Hl0 Hn0 Hne) as (S1 & Hc & Ha').
    rewrite Ha' in Ha. injection Ha as _ <-.
    destruct (cancel_order_effect id loc0 S HS Hl0) as (S2 & Hc2 & HL & _).
    rewrite Hc2 in Hc. injection Hc as <-.
    apply indexed_add.
    + by eapply cancel_order_inv.
    + simpl. by rewrite HL, Hid0, lookup_delete_eq.
    + by eapply indexed_cancel.
  - destruct (amend_in_place_effect id loc0 n0 p q S HS Hl0 Hn0 Hne)
      as (S2 & Ha' & HL & HN & HQ).
    rewrite Ha' in Ha. injection Ha as _ <-.
    intros it Hin. rewrite HQ in Hin.
    destruct (IH it Hin) as (n & loc & Hn & Hl & Hit).
    rewrite HL, HN. destruct (decide (loc_list_iter loc0 = it)) as [Heq|Hneq].
    + rewrite Heq in *. rewrite Hn in Hn0. injection Hn0 as <-.
      eexists _, loc. rewrite lookup_insert_eq. by split.
    + exists n, loc. by rewrite lookup_insert_ne.
Qed.

Lemma reachable_fresh_indexed S : reachable_fresh S -> indexed S.
Proof.
  induction 1 as [|o S HS IH Hwf Hf|id S r S' HS IH _ Hc|id p q S r S' HS IH _ Hp _ Ha
                  |d bids asks S _ IH].
  - intros it Hin. by apply elem_of_nil in Hin.
  - apply indexed_add; [by eapply reachable_with_inv|by apply Hf|done].
  - eapply indexed_cancel; [by eapply reachable_with_inv|done..].
  - eapply indexed_amend; [by eapply reachable_with_inv|done..].
  - done.
Qed.

Lemma dup_book_reachable : reachable dup_book.
Proof.
  apply reach_add; [|reflexivity|discriminate].
  apply reachable_fresh_reachable, one_book_reachable.
Defined.

Lemma huge_book_reachable : reachable_fresh huge_book.
Proof.
  unfold huge_book.
  repeat (apply reach_add; [|reflexivity|intros _; vm_compute; reflexivity]).
  apply reach_empty.
Defined.

(** C1, as stated, fails: after id 1 is added twice, the node of the first
    order is queued but no entry of the order index locates it. *)
Lemma book_consistent_fails :
  reachable dup_book /\ ~ book_consistent dup_book.
Proof.
  split; [apply dup_book_reachable|].
  intros [_ H]. destruct (H 1%positive) as (id & (loc & Hl & Hit & _) & _).
  - vm_compute. apply list_elem_of_here.
  - revert Hl. unfold dup_book, one_book, add_order. simpl.
    rewrite lookup_insert. case_decide.
    + intros [= <-]. vm_compute in Hit. discriminate Hit.
    + rewrite lookup_insert. case_decide; [done|].
      simpl. by rewrite lookup_empty.
Qed.

(** The aggregate is a [uint64_t]: two orders of quantity 2^63 at one price
    make a level whose aggregate is 0. *)
Example aggregate_wraps :
  reachable huge_book /\
  (get_snapshot 1 [] [] huge_book).2.1 = [mkPriceLevel (double_of_Z 100) 0].
Proof.
  split; [apply reachable_fresh_reachable, huge_book_reachable|].
  vm_compute. reflexivity.
Qed.

(** C1 (amended): in every reachable book the aggregate of every level is
    the sum of the quantities of its orders in [uint64_t] arithmetic (the
    sum modulo 2^64, so the sum itself when it is below 2^64), every entry
    of the order index resolves, by its side and price, to the level whose
    queue holds its node, and no node is located by two ids; and when no
    [add_order] call reused an id that was live, every live order has
    exactly one entry. *)
Theorem book_consistent_mod S :
  reachable S ->
  aggregation_mod S /\
  (forall b k pl, (k, pl) ∈ side b S ->
     0 <= queue_sum (nodes S) (orders pl) < uint64_max ->
     total_quantity pl = queue_sum (nodes S) (orders pl)) /\
  index_sound S /\
  (forall it id id', located S it id -> located S it id' -> id' = id) /\
  (reachable_fresh S -> index_exact S).
Proof.
  intros HS%reachable_with_inv.
  assert (aggregation_mod S) as Hagg.
  { intros b k pl Hin. by destruct (inv_levels S HS b k pl Hin). }
  split; [done|]. split.
  { intros b k pl Hin Hr. rewrite (Hagg b k pl Hin). by apply wrap64_small. }
  split.
  { intros id loc Hl. split; [|by apply entry_located].
    by destruct (entry_node S id loc HS Hl) as (n & _ & _ & Hq). }
  split.
  { intros it id id'. by apply located_unique. }
  intros Hfresh it Hin.
  destruct (reachable_fresh_indexed S Hfresh it Hin) as (n & loc & Hn & Hl & Hit).
  exists (order_id (order n)). split.
  - rewrite <- Hit. by apply entry_located.
  - intros id' Hloc'. eapply located_unique; [done| |done].
    rewrite <- Hit. by apply entry_located.
Qed.

Lemma book_consistent_mod_demo :
  aggregation_mod demo_book /\
  (forall b k pl, (k, pl) ∈ side b demo_book ->
     0 <= queue_sum (nodes demo_book) (orders pl) < uint64_max ->
     total_quantity pl = queue_sum (nodes demo_book) (orders pl)) /\
  index_sound demo_book /\
  (forall it id id', located demo_book it id -> located demo_book it id' -> id' = id) /\
  index_exact demo_book.
Proof.
  destruct (book_consistent_mod demo_book) as (H1 & H2 & H3 & H4 & H5).
  - apply reachable_fresh_reachable, demo_book_reachable.
  - split; [exact H1|]. split; [exact H2|]. split; [exact H3|].
    split; [exact H4|]. exact (H5 demo_book_reachable).
Defined.

(** ** The scenarios of the test driver *)

(** [test_add_orders]: the snapshot at depth 5 of the six orders. *)
Example test_add_orders_snapshot :
  (get_snapshot 5 [] [] demo_book).2 =
  ([mkPriceLevel (double_of_Z 100) 80; mkPriceLevel (double_of_Z 99) 100],
   [mkPriceLevel (double_of_Z 101) 60; mkPriceLevel (double_of_Z 102) 60]).
Proof. vm_compute. reflexivity. Qed.

(** [test_cancel_order]: cancelling order 2 leaves 50 at 100.0; cancelling
    the unknown id 999 fails and changes nothing. *)
Example test_cancel_order_snapshot :
  (r ← cancel_order 2 demo_book;
   Some (r.1, (get_snapshot 5 [] [] r.2).2.1)) =
  Some (true, [mkPriceLevel (double_of_Z 100) 50; mkPriceLevel (double_of_Z 99) 100]) /\
  cancel_order 999 demo_book = Some (false, demo_book).
Proof. split; vm_compute; reflexivity. Qed.

(** [test_amend_order]: a quantity amend, then a price amend to 99.5. *)
Example test_amend_order_snapshot :
  let book := add_all [ mkOrder 1 true (double_of_Z 100) 50 0;
                        mkOrder 2 false (double_of_Z 101) 40 1 ] empty_book in
  let p99_5 := binary_normalize 53 1024 199 (-1) false in
  (r1 ← amend_order 1 (double_of_Z 100) 75 book;
   r2 ← amend_order 1 p99_5 75 r1.2;
   r3 ← amend_order 999 (double_of_Z 100) 10 r2.2;
   Some (r1.1, (get_snapshot 5 [] [] r1.2).2.1,
         r2.1, (get_snapshot 5 [] [] r2.2).2.1, r3.1)) =
  Some (true, [mkPriceLevel (double_of_Z 100) 75],
        true, [mkPriceLevel p99_5 75], false).
Proof. vm_compute. reflexivity. Qed.

(** [test_fifo_priority]: three orders at one price, cancelled front first. *)
Example test_fifo_priority_queue :
  let book := add_all [ mkOrder 1 true (double_of_Z 100) 50 0;
                        mkOrder 2 true (double_of_Z 100) 30 1;
                        mkOrder 3 true (double_of_Z 100) 20 2 ] empty_book in
  (r1 ← cancel_order 1 book;
   r2 ← cancel_order 2 r1.2;
   Some ((fun e => (orders e.2, total_quantity e.2)) <$> bids_ book,
         (fun e => (orders e.2, total_quantity e.2)) <$> bids_ r1.2,
         (fun e => (orders e.2, total_quantity e.2)) <$> bids_ r2.2)) =
  Some ([([1; 2; 3]%positive, 100)], [([2; 3]%positive, 50)], [([3]%positive, 20)]).
Proof. vm_compute. reflexivity. Qed.

(** * Further properties of the operations *)

(** ** Equality of prices *)

(** Away from NaN, two doubles compare equal exactly when neither is less
    than the other. *)
Lemma double_ne_false_iff a b :
  is_nan a = false -> is_nan b = false ->
  double_ne a b = false <-> double_lt a b = false /\ double_lt b a = false.
Proof.
  unfold double_ne, double_lt, SFeqb, SFltb, SFcompare.
  destruct a as [[]|[]| |[] ? ?], b as [[]|[]| |[] ? ?]; simpl;
    intros Ha Hb; try discriminate;
    change (Pos.compare_cont Eq) with Pos.compare;
    cmp_cases; simpl; subst;
    (split; [intros ?|intros [? ?]]); try done; try lia.
Qed.

Lemma eqv_double_ne b k p :
  is_nan k = false -> is_nan p = false ->
  StdMap.eqv (side_comp b) k p <-> double_ne p k = false.
Proof.
  intros Hk Hp. rewrite (double_ne_false_iff p k Hp Hk).
  unfold StdMap.eqv. destruct b; simpl; unfold greater, less; tauto.
Qed.

(** ** Snapshots at different depths *)

(** A snapshot at depth [d] is the first [d] entries of a snapshot at any
    greater depth, on both sides and whatever the vectors held: asking for
    more depth only appends levels. *)
Theorem snapshot_is_prefix_of_deeper d d' bids asks bids' asks' S :
  (d <= d')%nat ->
  take d (get_snapshot d' bids' asks' S).2.1 = (get_snapshot d bids asks S).2.1 /\
  take d (get_snapshot d' bids' asks' S).2.2 = (get_snapshot d bids asks S).2.2.
Proof.
  intros Hd. rewrite !get_snapshot_take. simpl.
  rewrite <- !fmap_take, !take_take.
  by replace (d `min` d')%nat with d by lia.
Qed.

Lemma snapshot_is_prefix_of_deeper_demo :
  take 1 (get_snapshot 5 [] [] demo_book).2.1 = (get_snapshot 1 [] [] demo_book).2.1 /\
  take 1 (get_snapshot 5 [] [] demo_book).2.2 = (get_snapshot 1 [] [] demo_book).2.2.
Proof.
  apply (snapshot_is_prefix_of_deeper 1 5 [] [] [] [] demo_book). lia.
Defined.

(** In a reachable book the snapshot at depth 1 holds the best price of
    each side: every bid level is the one reported or has a lower price,
    every ask level is the one reported or has a higher price. *)
Theorem snapshot_depth_one_is_best S bids asks :
  reachable S ->
  (forall k pl, (k, pl) ∈ bids_ S ->
     exists best, (get_snapshot 1 bids asks S).2.1 = [best] /\
       (summary (k, pl) = best \/ double_lt k (pl_price best) = true)) /\
  (forall k pl, (k, pl) ∈ asks_ S ->
     exists best, (get_snapshot 1 bids asks S).2.2 = [best] /\
       (summary (k, pl) = best \/ double_lt (pl_price best) k = true)).
Proof.
  intros HS%reachable_with_inv. rewrite get_snapshot_take. simpl.
  pose proof (inv_sorted S HS true) as Hb. pose proof (inv_sorted S HS false) as Ha.
  simpl in Hb, Ha. unfold StdMap.sorted in Hb, Ha. split.
  - destruct (bids_ S) as [|e0 rest]; intros k pl Hin; [by apply elem_of_nil in Hin|].
    exists (summary e0). split; [done|].
    apply elem_of_cons in Hin as [<-|Hin]; [by left|right].
    rewrite fmap_cons in Hb. apply StronglySorted_inv in Hb as [_ Hall].
    eapply Forall_forall in Hall; [exact Hall|].
    apply list_elem_of_fmap. by exists (k, pl).
  - destruct (asks_ S) as [|e0 rest]; intros k pl Hin; [by apply elem_of_nil in Hin|].
    exists (summary e0). split; [done|].
    apply elem_of_cons in Hin as [<-|Hin]; [by left|right].
    rewrite fmap_cons in Ha. apply StronglySorted_inv in Ha as [_ Hall].
    eapply Forall_forall in Hall; [exact Hall|].
    apply list_elem_of_fmap. by exists (k, pl).
Qed.

Lemma snapshot_depth_one_is_best_demo :
  (forall k pl, (k, pl) ∈ bids_ demo_book ->
     exists best, (get_snapshot 1 [] [] demo_book).2.1 = [best] /\
       (summary (k, pl) = best \/ double_lt k (pl_price best) = true)) /\
  (forall k pl, (k, pl) ∈ asks_ demo_book ->
     exists best, (get_snapshot 1 [] [] demo_book).2.2 = [best] /\
       (summary (k, pl) = best \/ double_lt (pl_price best) k = true)).
Proof.
  apply (snapshot_depth_one_is_best demo_book [] []).
  apply reachable_fresh_reachable, demo_book_reachable.
Defined.

(** ** print_book *)

Lemma StronglySorted_reverse {A} (R : relation A) (l : list A) :
  StronglySorted R l -> StronglySorted (fun a b => R b a) (reverse l).
Proof.
  induction 1 as [|x l _ IH Hall]; [constructor|].
  rewrite reverse_cons. apply StronglySorted_app_2; [|done|repeat constructor].
  intros x1 x2 Hx1 ->%list_elem_of_singleton.
  rewrite elem_of_reverse in Hx1. eapply Forall_forall in Hall; [exact Hall|exact Hx1].
Qed.

Lemma row_prices_rows (l : list PriceLevel) : row_prices (row <$> l) = pl_price <$> l.
Proof.
  unfold row_prices. induction l as [|x l IH]; [done|].
  rewrite !fmap_cons. simpl. by rewrite <- IH.
Qed.

(** [print_book] on a reachable book prints, between its headers, one row
    per level of the snapshot at that depth: first the asks and then the
    bids, each block with strictly decreasing prices from top to bottom
    (so the best ask is the last row above the rule and the best bid the
    first row below it), and at most [depth] rows per block. *)
Theorem print_book_blocks depth S :
  reachable S ->
  exists A B,
    print_book depth S =
      [Banner; AsksHeader] ++ A ++ [Rule; BidsHeader] ++ B ++ [Footer] /\
    A = row <$> reverse (get_snapshot depth [] [] S).2.2 /\
    B = row <$> (get_snapshot depth [] [] S).2.1 /\
    length A = Nat.min depth (length (asks_ S)) /\
    length B = Nat.min depth (length (bids_ S)) /\
    StronglySorted (fun a b => double_lt b a = true) (row_prices A) /\
    StronglySorted (fun a b => double_lt b a = true) (row_prices B).
Proof.
  intros HS%reachable_with_inv. unfold print_book.
  eexists _, _. split; [reflexivity|]. split; [reflexivity|]. split; [reflexivity|].
  rewrite !row_prices_rows, !get_snapshot_take. simpl.
  rewrite !length_fmap, length_reverse, !length_fmap, !length_take.
  split; [done|]. split; [done|].
  assert (forall l : list (double * PriceLevelData),
            pl_price <$> (summary <$> l) = l.*1) as Hfst.
  { intros l. rewrite <- list_fmap_compose. by apply list_fmap_ext. }
  rewrite fmap_reverse, !Hfst. split.
  - apply (StronglySorted_reverse (fun a b => less a b = true)).
    apply (StdMapFacts.sorted_keys_sublist less (asks_ S)).
    + apply fmap_sublist, sublist_take.
    + apply (inv_sorted S HS false).
  - apply (StdMapFacts.sorted_keys_sublist greater (bids_ S)).
    + apply fmap_sublist, sublist_take.
    + apply (inv_sorted S HS true).
Qed.

Lemma print_book_blocks_demo :
  exists A B,
    print_book 10 demo_book =
      [Banner; AsksHeader] ++ A ++ [Rule; BidsHeader] ++ B ++ [Footer] /\
    A = row <$> reverse (get_snapshot 10 [] [] demo_book).2.2 /\
    B = row <$> (get_snapshot 10 [] [] demo_book).2.1 /\
    length A = Nat.min 10 (length (asks_ demo_book)) /\
    length B = Nat.min 10 (length (bids_ demo_book)) /\
    StronglySorted (fun a b => double_lt b a = true) (row_prices A) /\
    StronglySorted (fun a b => double_lt b a = true) (row_prices B).
Proof.
  apply (print_book_blocks 10 demo_book).
  apply reachable_fresh_reachable, demo_book_reachable.
Defined.

(** ** The node store *)

Lemma nodes_are_queued_add o S :
  book_inv S -> nodes_are_queued S -> nodes_are_queued (add_order o S).
Proof.
  unfold nodes_are_queued. intros HS IH it.
  destruct (add_order_effect o S HS) as (_ & -> & ->).
  rewrite lookup_insert_is_Some, elem_of_cons, <- IH.
  destruct (decide (new_node S = it)) as [->|Hne]; [tauto|].
  split; [intros [?|[_ ?]]; [congruence|tauto]|intros [?|?]; [congruence|tauto]].
Qed.

Lemma nodes_are_queued_cancel id S r S' :
  book_inv S -> cancel_order id S = Some (r, S') ->
  nodes_are_queued S -> nodes_are_queued S'.
Proof.
  unfold nodes_are_queued. intros HS Hc IH.
  destruct (order_lookup_ S !! id) as [loc0|] eqn:Hl0.
  2:{ rewrite cancel_order_absent in Hc by done. by injection Hc as _ <-. }
  destruct (cancel_order_effect id loc0 S HS Hl0) as (S2 & Hc2 & _ & HN & HQ).
  rewrite Hc2 in Hc. injection Hc as _ <-.
  pose proof (queued_NoDup S HS) as Hnd. rewrite HQ in Hnd.
  apply NoDup_cons in Hnd as [Hnotin _].
  intros it. rewrite HN, lookup_delete_is_Some, IH, HQ, elem_of_cons.
  split; [intros [? [?|?]]; [congruence|done]|].
  intros Hin. split; [by intros <-|by right].
Qed.

Lemma nodes_are_queued_amend id p q S r S' :
  book_inv S -> amend_order id p q S = Some (r, S') ->
  nodes_are_queued S -> nodes_are_queued S'.
Proof.
  intros HS Ha IH.
  destruct (order_lookup_ S !! id) as [loc0|] eqn:Hl0.
  2:{ rewrite amend_order_absent in Ha by done. by injection Ha as _ <-. }
  destruct (entry_node S id loc0 HS Hl0) as (n0 & Hn0 & _ & Hq0).
  destruct (double_ne (price (order n0)) p) eqn:Hne.
  - destruct (amend_order_reprice id loc0 n0 p q S HS Hl0 Hn0 Hne) as (S1 & Hc & Ha').
    rewrite Ha' in Ha. injection Ha as _ <-.
    apply nodes_are_queued_add; [by eapply cancel_order_inv|].
    by eapply nodes_are_queued_cancel.
  - destruct (amend_in_place_effect id loc0 n0 p q S HS Hl0 Hn0 Hne)
      as (S2 & Ha' & _ & HN & HQ).
    rewrite Ha' in Ha. injection Ha as _ <-. unfold nodes_are_queued in *.
    intros it. rewrite HN, HQ, lookup_insert_is_Some, <- IH.
    destruct (decide (loc_list_iter loc0 = it)) as [<-|Hneq]; [|tauto].
    split; [intros _; eauto|auto].
Qed.

(** In every reachable book the allocated list nodes are exactly the
    nodes linked into the queues of the price levels, and no node is
    linked twice: no call leaks a node or leaves a queue pointing at a
    freed one. *)
Theorem reachable_nodes_are_queued S :
  reachable S -> nodes_are_queued S /\ NoDup (queued S).
Proof.
  intros HS. split; [|by eapply queued_NoDup, reachable_with_inv].
  induction HS as [|o S HS IH Hwf _|id S r S' HS IH _ Hc|id p q S r S' HS IH _ Hp _ Ha
                   |d bids asks S _ IH].
  - intros it. simpl. rewrite lookup_empty. split; [by intros [? ?]|].
    by intros ?%elem_of_nil.
  - apply nodes_are_queued_add; [by eapply reachable_with_inv|done].
  - eapply nodes_are_queued_cancel; [by eapply reachable_with_inv|done..].
  - eapply nodes_are_queued_amend; [by eapply reachable_with_inv|done..].
  - done.
Qed.

Lemma reachable_nodes_are_queued_demo :
  nodes_are_queued demo_book /\ NoDup (queued demo_book).
Proof.
  apply (reachable_nodes_are_queued demo_book).
  apply reachable_fresh_reachable, demo_book_reachable.
Defined.

(** ** The size of the order index *)

Lemma index_size_add o S :
  book_inv S ->
  length (queued (add_order o S)) = Datatypes.S (length (queued S)) /\
  size (order_lookup_ (add_order o S)) =
    match order_lookup_ S !! order_id o with
    | Some _ => size (order_lookup_ S)
    | None => Datatypes.S (size (order_lookup_ S))
    end.
Proof.
  intros HS. destruct (add_order_effect o S HS) as (-> & _ & ->).
  split; [done|]. rewrite map_size_insert.
  by destruct (order_lookup_ S !! order_id o).
Qed.

Lemma index_size_cancel id loc S S' :
  book_inv S -> order_lookup_ S !! id = Some loc ->
  cancel_order id S = Some (true, S') ->
  length (queued S) = Datatypes.S (length (queued S')) /\
  size (order_lookup_ S) = Datatypes.S (size (order_lookup_ S')).
Proof.
  intros HS Hl Hc.
  destruct (cancel_order_effect id loc S HS Hl) as (S2 & Hc2 & HL & _ & HQ).
  rewrite Hc2 in Hc. injection Hc as <-. rewrite HQ, HL. split; [done|].
  rewrite <- (insert_delete_id (order_lookup_ S) id loc Hl) at 1.
  apply map_size_insert_None, lookup_delete_eq.
Qed.

Lemma index_size_step f S :
  reachable_with f S ->
  (size (order_lookup_ S) <= length (queued S))%nat /\
  (f = true -> size (order_lookup_ S) = length (queued S)).
Proof.
  induction 1 as [|o S HS IH Hwf Hf|id S r S' HS IH _ Hc|id p q S r S' HS IH _ Hp _ Ha
                  |d bids asks S _ IH].
  - split; [|intros _]; simpl; by rewrite map_size_empty.
  - apply reachable_with_inv in HS.
    destruct (index_size_add o S HS) as [-> ->]. destruct IH as [IH1 IH2].
    split.
    + destruct (order_lookup_ S !! order_id o); lia.
    + intros ->. rewrite Hf, IH2 by done. done.
  - apply reachable_with_inv in HS.
    destruct (order_lookup_ S !! id) as [loc|] eqn:Hl.
    2:{ rewrite cancel_order_absent in Hc by done. by injection Hc as _ <-. }
    destruct (cancel_order_effect id loc S HS Hl) as (S2 & Hc2 & _).
    rewrite Hc2 in Hc. injection Hc as _ <-.
    destruct (index_size_cancel id loc S S2 HS Hl Hc2) as [E1 E2].
    destruct IH as [IH1 IH2]. split; [lia|]. intros Hft. specialize (IH2 Hft). lia.
  - apply reachable_with_inv in HS.
    destruct (order_lookup_ S !! id) as [loc|] eqn:Hl.
    2:{ rewrite amend_order_absent in Ha by done. by injection Ha as _ <-. }
    destruct (entry_node S id loc HS Hl) as (n & Hn & Hid & _).
    destruct (double_ne (price (order n)) p) eqn:Hne.
    + destruct (amend_order_reprice id loc n p q S HS Hl Hn Hne) as (S1 & Hc & Ha').
      rewrite Ha' in Ha. injection Ha as _ <-.
      destruct (index_size_cancel id loc S S1 HS Hl Hc) as [E1 E2].
      destruct (cancel_order_effect id loc S HS Hl) as (S2 & Hc2 & HL & _).
      rewrite Hc2 in Hc. injection Hc as <-.
      destruct (index_size_add (amend_price (order n) p q) S2
                  (cancel_order_inv id S true S2 HS Hc2)) as [-> ->].
      assert (order_lookup_ S2 !! id = None) as Hnone
        by (rewrite HL; apply lookup_delete_eq).
      simpl. rewrite Hid, Hnone.
      destruct IH as [IH1 IH2]. split; [lia|]. intros Hft. specialize (IH2 Hft). lia.
    + destruct (amend_in_place_effect id loc n p q S HS Hl Hn Hne)
        as (S2 & Ha' & HL & _ & HQ).
      rewrite Ha' in Ha. injection Ha as _ <-. by rewrite HL, HQ.
  - done.
Qed.

(** The order index never holds more entries than there are queued
    orders, and it holds exactly as many when no [add_order] call reused an
    id that was live. *)
Theorem index_size_is_live_orders S :
  reachable S ->
  (size (order_lookup_ S) <= length (queued S))%nat /\
  (reachable_fresh S -> size (order_lookup_ S) = length (queued S)).
Proof.
  intros HS. split; [by apply (index_size_step false)|].
  intros Hf. by apply (index_size_step true).
Qed.

Lemma index_size_is_live_orders_demo :
  (size (order_lookup_ demo_book) <= length (queued demo_book))%nat /\
  size (order_lookup_ demo_book) = length (queued demo_book).
Proof.
  destruct (index_size_is_live_orders demo_book) as [H1 H2].
  - apply reachable_fresh_reachable, demo_book_reachable.
  - split; [exact H1|exact (H2 demo_book_reachable)].
Defined.

(** ** After a cancel *)

(** Once [cancel_order id] has returned [true] on a reachable book, the id
    is absent from the order index, so cancelling or amending it again
    returns [false] and changes nothing; the entries of the other ids and
    the nodes they locate are as before. *)
Theorem cancelled_id_is_absent S id S' :
  reachable S ->
  cancel_order id S = Some (true, S') ->
  order_lookup_ S' !! id = None /\
  cancel_order id S' = Some (false, S') /\
  (forall p q, amend_order id p q S' = Some (false, S')) /\
  (forall id' loc', id' <> id ->
     order_lookup_ S !! id' = Some loc' ->
     order_lookup_ S' !! id' = Some loc' /\
     nodes S' !! loc_list_iter loc' = nodes S !! loc_list_iter loc').
Proof.
  intros HS%reachable_with_inv Hc.
  destruct (order_lookup_ S !! id) as [loc|] eqn:Hl.
  2:{ rewrite cancel_order_absent in Hc by done. discriminate Hc. }
  destruct (cancel_order_effect id loc S HS Hl) as (S2 & Hc2 & HL & HN & _).
  rewrite Hc2 in Hc. injection Hc as <-.
  assert (order_lookup_ S2 !! id = None) as Hnone
    by (rewrite HL; apply lookup_delete_eq).
  split; [done|]. split; [by apply cancel_order_absent|].
  split; [intros p q; by apply amend_order_absent|].
  intros id' loc' Hne Hl'. rewrite HL, HN, lookup_delete_ne by done.
  split; [done|]. apply lookup_delete_ne.
  destruct (entry_node S id loc HS Hl) as (n & Hn & Hid & _).
  destruct (entry_node S id' loc' HS Hl') as (n' & Hn' & Hid' & _).
  intros Heq. rewrite Heq in Hn. congruence.
Qed.

Lemma cancelled_id_is_absent_demo :
  let S' := match cancel_order 2 demo_book with Some r => r.2 | None => demo_book end in
  order_lookup_ S' !! 2 = None /\
  cancel_order 2 S' = Some (false, S') /\
  (forall p q, amend_order 2 p q S' = Some (false, S')) /\
  (forall id' loc', id' <> 2 ->
     order_lookup_ demo_book !! id' = Some loc' ->
     order_lookup_ S' !! id' = Some loc' /\
     nodes S' !! loc_list_iter loc' = nodes demo_book !! loc_list_iter loc').
Proof.
  apply (cancelled_id_is_absent demo_book 2).
  - apply reachable_fresh_reachable, demo_book_reachable.
  - vm_compute. reflexivity.
Defined.

(** ** Amends that change nothing, and amends in a row *)

Lemma amend_level_same q pl :
  0 <= total_quantity pl < uint64_max -> amend_level q q pl = pl.
Proof.
  intros Hr. destruct pl as [p l t]. unfold amend_level. simpl in *. f_equal.
  rewrite wrap64_add_l. replace (t - q + q) with t by lia. by apply wrap64_small.
Qed.

(** Amending a live order of a reachable book to the price and the
    quantity it already has returns [true] and leaves the book exactly as
    it was. *)
Theorem amend_to_same_is_identity S id loc n p :
  reachable S ->
  order_lookup_ S !! id = Some loc ->
  nodes S !! loc_list_iter loc = Some n ->
  double_ne (price (order n)) p = false ->
  amend_order id p (quantity (order n)) S = Some (true, S).
Proof.
  intros HS%reachable_with_inv Hl Hnode Hne.
  rewrite (amend_order_in_place id loc n p _ S HS Hl Hnode Hne).
  destruct (lookup_focus id loc S HS Hl)
    as (m1 & m2 & k & pl & n' & l1 & l2 & Hm & _ & _ & _ & Halter & _).
  rewrite Halter, amend_level_same, <- Hm.
  2:{ destruct (inv_levels S HS (loc_is_buy loc) k pl) as [_ ->].
      - rewrite Hm, elem_of_app, elem_of_cons. auto.
      - apply wrap64_range. }
  replace (mkOrderNode (amend_quantity (order n) (quantity (order n))) (list_iter n))
    with n by (by destruct n as [[] ?]).
  by rewrite insert_id, book_of_sides.
Qed.

Lemma amend_to_same_is_identity_demo :
  amend_order 3 (double_of_Z 99) 100 demo_book = Some (true, demo_book).
Proof.
  apply (amend_to_same_is_identity demo_book 3
           (mkOrderLocation true (double_of_Z 99) 3)
           (mkOrderNode (mkOrder 3 true (double_of_Z 99) 100 1002) 3)
           (double_of_Z 99)).
  - apply reachable_fresh_reachable, demo_book_reachable.
  - vm_compute. reflexivity.
  - vm_compute. reflexivity.
  - vm_compute. reflexivity.
Defined.

Lemma amend_level_twice q0 q1 q2 pl :
  amend_level q1 q2 (amend_level q0 q1 pl) = amend_level q0 q2 pl.
Proof.
  unfold amend_level. simpl. f_equal.
  rewrite (wrap64_sub_l (wrap64 (total_quantity pl - q0) + q1)).
  replace (wrap64 (total_quantity pl - q0) + q1 - q1)
    with (wrap64 (total_quantity pl - q0)) by lia.
  f_equal. f_equal. unfold wrap64. apply Zmod_mod.
Qed.

(** Two quantity amends of a live order at its price, one after the other,
    leave the book that the second one alone leaves: the first quantity is
    forgotten, also in the aggregate of the level. *)
Theorem amend_twice_is_last_amend S id loc n p p' q1 q2 :
  reachable S ->
  order_lookup_ S !! id = Some loc ->
  nodes S !! loc_list_iter loc = Some n ->
  double_ne (price (order n)) p = false ->
  double_ne (price (order n)) p' = false ->
  exists S1 S2,
    amend_order id p q1 S = Some (true, S1) /\
    amend_order id p' q2 S1 = Some (true, S2) /\
    amend_order id p' q2 S = Some (true, S2).
Proof.
  intros HS%reachable_with_inv Hl Hnode Hne Hne'.
  pose proof (amend_order_in_place id loc n p q1 S HS Hl Hnode Hne) as H1.
  pose proof (amend_in_place_inv id loc n q1 S HS Hl Hnode) as HS1.
  simpl in H1, HS1.
  set (S1 := book_of _ _ _ _ _) in H1, HS1.
  assert (order_lookup_ S1 !! id = Some loc) as Hl1
    by (unfold S1; by rewrite lookup_book_of).
  assert (nodes S1 !! loc_list_iter loc =
          Some (mkOrderNode (amend_quantity (order n) q1) (list_iter n))) as Hn1
    by (unfold S1; by rewrite nodes_book_of, lookup_insert_eq).
  pose proof (amend_order_in_place id loc _ p' q2 S1 HS1 Hl1 Hn1 Hne') as H2.
  eexists S1, _. split; [exact H1|]. split; [exact H2|].
  rewrite (amend_order_in_place id loc n p' q2 S HS Hl Hnode Hne').
  simpl. unfold S1.
  rewrite side_book_of, side_book_of_neg, lookup_book_of, nodes_book_of.
  rewrite insert_insert_eq, StdMapFacts.alter_alter.
  do 3 f_equal. apply StdMapFacts.alter_ext. intros pl.
  symmetry. apply amend_level_twice.
Qed.

Lemma amend_twice_is_last_amend_demo :
  exists S1 S2,
    amend_order 1 (double_of_Z 100) 75 demo_book = Some (true, S1) /\
    amend_order 1 (double_of_Z 100) 10 S1 = Some (true, S2) /\
    amend_order 1 (double_of_Z 100) 10 demo_book = Some (true, S2).
Proof.
  apply (amend_twice_is_last_amend demo_book 1
           (mkOrderLocation true (double_of_Z 100) 1)
           (mkOrderNode (mkOrder 1 true (double_of_Z 100) 50 1000) 1)).
  - apply reachable_fresh_reachable, demo_book_reachable.
  - vm_compute. reflexivity.
  - vm_compute. reflexivity.
  - vm_compute. reflexivity.
  - vm_compute. reflexivity.
Defined.

(** ** Where the orders rest *)

Lemma focus_notin b S m1 k pl m2 l1 it l2 :
  book_inv S ->
  side b S = m1 ++ (k, pl) :: m2 ->
  orders pl = l1 ++ it :: l2 ->
  it ∉ iters_of m1 ++ l1 ++ l2 ++ iters_of m2 ++ iters_of (side (negb b) S).
Proof.
  intros HS Hm Hord. pose proof (inv_nodup S HS b) as Hnd.
  rewrite Hm, iters_of_app, iters_of_cons, Hord, <- !app_assoc in Hnd.
  simpl in Hnd. rewrite <- !Permutation_middle in Hnd.
  by apply NoDup_cons in Hnd as [Hnotin _].
Qed.

Lemma level_placed_insert N b k pl it n :
  it ∉ orders pl -> level_placed N b k pl -> level_placed (<[it := n]> N) b k pl.
Proof.
  intros Hit [Hk Hall]. split; [done|]. intros i Hi.
  destruct (Hall i Hi) as (n' & Hn' & Hrest). exists n'.
  rewrite lookup_insert_ne; [done|]. by intros ->.
Qed.

Lemma level_placed_delete N b k pl it :
  it ∉ orders pl -> level_placed N b k pl -> level_placed (delete it N) b k pl.
Proof.
  intros Hit [Hk Hall]. split; [done|]. intros i Hi.
  destruct (Hall i Hi) as (n' & Hn' & Hrest). exists n'.
  rewrite lookup_delete_ne; [done|]. by intros ->.
Qed.

Lemma well_placed_book_of b m other L N :
  (forall k pl, (k, pl) ∈ m -> level_placed N b k pl) ->
  (forall k pl, (k, pl) ∈ other -> level_placed N (negb b) k pl) ->
  well_placed (book_of b m other L N).
Proof.
  intros H1 H2 b'. rewrite nodes_book_of. revert b'.
  by apply (book_of_ind b m other L N
              (fun b' x _ => forall k pl, (k, pl) ∈ x -> level_placed N b' k pl)).
Qed.

Lemma well_placed_add o S :
  book_inv S -> is_nan (price o) = false ->
  well_placed S -> well_placed (add_order o S).
Proof.
  intros HS Hp IH.
  destruct (add_order_side o S HS)
    as (m1 & m2 & k & pl0 & old & Hm' & Hm & He & _ & Hold & _ & Hc).
  pose proof (fun b => new_node_not_queued S b HS) as Hnq.
  revert Hm'. rewrite add_order_book_of, side_book_of.
  set (b := is_buy o) in *. set (it := new_node S) in *. intros ->.
  assert (forall b1 k1 pl1, (k1, pl1) ∈ side b1 S ->
            level_placed (<[it := mkOrderNode o it]> (nodes S)) b1 k1 pl1) as Hold'.
  { intros b1 k1 pl1 Hin. apply level_placed_insert; [|by apply IH].
    intros Hi. apply (Hnq b1), elem_of_iters_of. by exists k1, pl1. }
  assert (is_nan k = false) as Hk.
  { destruct Hc as [->|(_ & -> & _)]; [|done].
    apply (IH b k pl0). rewrite Hm, !elem_of_app, list_elem_of_singleton. auto. }
  apply well_placed_book_of; [|intros k1 pl1 Hin; by apply Hold'].
  intros k1 pl1. rewrite elem_of_app, elem_of_cons. intros [Hin|[[= -> ->]|Hin]].
  - apply Hold'. rewrite Hm, !elem_of_app. auto.
  - split; [done|]. intros i. simpl. rewrite elem_of_app, list_elem_of_singleton.
    intros [Hi| ->].
    + destruct Hc as [->|(_ & _ & ->)]; [|by apply elem_of_nil in Hi].
      apply (Hold' b k pl0); [|done].
      rewrite Hm, !elem_of_app, list_elem_of_singleton. auto.
    + exists (mkOrderNode o it). rewrite lookup_insert_eq. simpl.
      split; [done|]. split; [done|]. split; [done|].
      by apply (eqv_double_ne b k (price o)).
  - apply Hold'. rewrite Hm, !elem_of_app. auto.
Qed.

Lemma well_placed_cancel id S r S' :
  book_inv S -> cancel_order id S = Some (r, S') ->
  well_placed S -> well_placed S'.
Proof.
  intros HS Hc IH.
  destruct (order_lookup_ S !! id) as [loc|] eqn:Hl.
  2:{ rewrite cancel_order_absent in Hc by done. by injection Hc as _ <-. }
  destruct (cancel_order_live id loc S HS Hl)
    as (m1 & m2 & k & pl & n & l1 & l2 & Hm & _ & Hord & _ & _ & _ & _ & Hc2).
  rewrite Hc2 in Hc. injection Hc as _ <-.
  set (b := loc_is_buy loc) in *. set (it := loc_list_iter loc) in *.
  pose proof (focus_notin b S m1 k pl m2 l1 it l2 HS Hm Hord) as Hnotin.
  revert Hnotin. rewrite !not_elem_of_app. intros (Hn1 & Hn2 & Hn3 & Hn4 & Hn5).
  assert (forall e, e ∈ m1 \/ e ∈ m2 -> e ∈ side b S) as Hsub.
  { intros e. rewrite Hm, elem_of_app, elem_of_cons. tauto. }
  apply well_placed_book_of.
  - intros k1 pl1. rewrite !elem_of_app. intros [Hin|[Hin|Hin]].
    + apply level_placed_delete; [|apply IH, Hsub; auto].
      intros Hi. apply Hn1, elem_of_iters_of. by exists k1, pl1.
    + apply elem_of_level_rest in Hin as [_ [= -> ->]].
      destruct (IH b k pl) as [Hk Hall].
      { rewrite Hm, elem_of_app, elem_of_cons. auto. }
      split; [done|]. simpl. intros i Hi.
      destruct (Hall i) as (n' & Hn' & Hrest).
      { revert Hi. rewrite Hord, !elem_of_app, elem_of_cons. tauto. }
      exists n'. rewrite lookup_delete_ne; [done|]. intros <-.
      revert Hi. rewrite elem_of_app. tauto.
    + apply level_placed_delete; [|apply IH, Hsub; auto].
      intros Hi. apply Hn4, elem_of_iters_of. by exists k1, pl1.
  - intros k1 pl1 Hin. apply level_placed_delete; [|by apply IH].
    intros Hi. apply Hn5, elem_of_iters_of. by exists k1, pl1.
Qed.

Lemma well_placed_amend id p q S r S' :
  book_inv S -> is_nan p = false -> amend_order id p q S = Some (r, S') ->
  well_placed S -> well_placed S'.
Proof.
  intros HS Hp Ha IH.
  destruct (order_lookup_ S !! id) as [loc|] eqn:Hl.
  2:{ rewrite amend_order_absent in Ha by done. by injection Ha as _ <-. }
  destruct (lookup_focus id loc S HS Hl)
    as (m1 & m2 & k & pl & n & l1 & l2 & Hm & Hord & Hnode & _ & Halter
        & Hnotin & _).
  destruct (double_ne (price (order n)) p) eqn:Hne.
  - destruct (amend_order_reprice id loc n p q S HS Hl Hnode Hne) as (S1 & Hc & Ha').
    rewrite Ha' in Ha. injection Ha as _ <-.
    apply well_placed_add; [by eapply cancel_order_inv|done|].
    by eapply well_placed_cancel.
  - rewrite (amend_order_in_place id loc n p q S HS Hl Hnode Hne) in Ha.
    injection Ha as _ <-. rewrite Halter.
    set (b := loc_is_buy loc) in *. set (it := loc_list_iter loc) in *.
    revert Hnotin. rewrite !not_elem_of_app. intros (Hn1 & Hn2 & Hn3 & Hn4 & Hn5).
    assert (forall e, e ∈ m1 \/ e ∈ m2 -> e ∈ side b S) as Hsub.
    { intros e. rewrite Hm, elem_of_app, elem_of_cons. tauto. }
    apply well_placed_book_of.
    + intros k1 pl1. rewrite elem_of_app, elem_of_cons.
      intros [Hin|[[= -> ->]|Hin]].
      * apply level_placed_insert; [|apply IH, Hsub; auto].
        intros Hi. apply Hn1, elem_of_iters_of. by exists k1, pl1.
      * destruct (IH b k pl) as [Hk Hall].
        { rewrite Hm, elem_of_app, elem_of_cons. auto. }
        split; [done|]. simpl. intros i Hi.
        destruct (Hall i Hi) as (n' & Hn' & Hit & Hb & Hpr).
        destruct (decide (it = i)) as [<-|Hneq].
        -- rewrite Hnode in Hn'. injection Hn' as <-.
           eexists. rewrite lookup_insert_eq. split; [done|]. by simpl.
        -- exists n'. by rewrite lookup_insert_ne.
      * apply level_placed_insert; [|apply IH, Hsub; auto].
        intros Hi. apply Hn4, elem_of_iters_of. by exists k1, pl1.
    + intros k1 pl1 Hin. apply level_placed_insert; [|by apply IH].
      intros Hi. apply Hn5, elem_of_iters_of. by exists k1, pl1.
Qed.

Lemma reachable_with_well_placed f S : reachable_with f S -> well_placed S.
Proof.
  induction 1 as [|o S HS IH Hwf _|id S r S' HS IH _ Hc|id p q S r S' HS IH _ Hp _ Ha
                  |d bids asks S _ IH].
  - intros [] k pl Hin; by apply elem_of_nil in Hin.
  - apply well_placed_add; [by eapply reachable_with_inv|by apply wf_order_price|done].
  - eapply well_placed_cancel; [by eapply reachable_with_inv|done..].
  - eapply well_placed_amend; [by eapply reachable_with_inv|done..].
  - done.
Qed.

(** In every reachable book each level of [bids_] holds buy orders only and
    each level of [asks_] sell orders only, every order rests in the level
    whose key compares equal to its price, keys are numbers, and every
    node stores its own address in [list_iter]. *)
Theorem orders_rest_at_their_side_and_price S :
  reachable S -> well_placed S.
Proof. apply reachable_with_well_placed. Qed.

Lemma orders_rest_at_their_side_and_price_demo : well_placed demo_book.
Proof.
  apply (orders_rest_at_their_side_and_price demo_book).
  apply reachable_fresh_reachable, demo_book_reachable.
Defined.

(** ** What a caller observes after [add_order] and [cancel_order] *)

Lemma filter_ne_notin (it : positive) (l : list positive) :
  it ∉ l -> filter (fun x => x <> it) l = l.
Proof.
  induction l as [|x l IH]; [done|].
  intros [Hne Hl]%not_elem_of_cons.
  rewrite filter_cons_True by done. by rewrite IH.
Qed.

Lemma filter_ne_focus (it : positive) (l1 l2 : list positive) :
  it ∉ l1 -> it ∉ l2 -> filter (fun x => x <> it) (l1 ++ it :: l2) = l1 ++ l2.
Proof.
  intros H1 H2. rewrite filter_app, filter_cons_False by (by intros []).
  by rewrite !filter_ne_notin.
Qed.

Lemma eqv_dec comp (k p : double) :
  StdMap.eqv comp k p \/ ~ StdMap.eqv comp k p.
Proof.
  unfold StdMap.eqv. destruct (comp k p), (comp p k); [right..|left];
    by try intros [? ?].
Qed.

(** After [add_order o] on a reachable book a caller finds, at every price
    equal to the order's price on the order's side, the level found there
    before with the new node at the back of its queue and the quantity
    added to its aggregate (a new level when none was found); at any other
    price, and on the other side, it finds what it found before.  In
    particular no resting order is consumed or moved, also when the book
    is crossed. *)
Theorem add_order_observed S o b' p' :
  reachable S ->
  wf_order o = true ->
  is_nan p' = false ->
  level_at b' p' (add_order o S) =
    (if bool_decide (b' = is_buy o) && negb (double_ne (price o) p')
     then with_node o (new_node S) (level_at b' p' S)
     else level_at b' p' S) /\
  side (negb (is_buy o)) (add_order o S) = side (negb (is_buy o)) S.
Proof.
  intros HR Hwf Hp'. pose proof (wf_order_price o Hwf) as Hp.
  assert (reachable (add_order o S)) as HR' by (by apply reach_add).
  pose proof (reachable_with_inv _ _ HR) as HS.
  pose proof (reachable_with_inv _ _ HR') as HS'.
  pose proof (reachable_with_well_placed _ _ HR') as HW'.
  destruct (add_order_side o S HS)
    as (m1 & m2 & k & pl0 & old & Hm' & Hm & He & _ & _ & _ & Hc).
  set (b := is_buy o) in *.
  assert (side (negb b) (add_order o S) = side (negb b) S) as Hother.
  { rewrite add_order_book_of. apply side_book_of_neg. }
  split; [|done]. unfold level_at.
  pose proof (inv_sorted S HS b) as Hs. pose proof (inv_sorted _ HS' b) as Hs'.
  rewrite Hm in Hs. rewrite Hm' in Hs'.
  assert (is_nan k = false) as Hk.
  { apply (HW' b k (push_order o (new_node S) pl0)).
    rewrite Hm', elem_of_app, elem_of_cons. auto. }
  destruct (decide (b' = b)) as [->|Hb'].
  2:{ rewrite bool_decide_eq_false_2 by done. simpl.
      assert (b' = negb b) as -> by (by destruct b', b). by rewrite Hother. }
  rewrite bool_decide_eq_true_2 by done. simpl. rewrite Hm', Hm.
  destruct (double_ne (price o) p') eqn:Hne; simpl.
  - apply (StdMapFacts.find_frame (side_comp b) p' m1 old [_] m2); [done..| |].
    + intros e Hin Heq.
      destruct Hc as [->|(-> & _)]; [|by apply elem_of_nil in Hin].
      apply list_elem_of_singleton in Hin as ->. simpl in Heq.
      assert (StdMap.eqv (side_comp b) p' (price o)) as Heq'.
      { apply (StdMapFacts.eqv_trans _ _ k); [done| |done].
        by apply StdMapFacts.eqv_sym. }
      apply eqv_double_ne in Heq'; [congruence|done..].
    + intros e ->%list_elem_of_singleton Heq. simpl in Heq.
      assert (StdMap.eqv (side_comp b) p' (price o)) as Heq'.
      { apply (StdMapFacts.eqv_trans _ _ k); [done| |done].
        by apply StdMapFacts.eqv_sym. }
      apply eqv_double_ne in Heq'; [congruence|done..].
  - assert (StdMap.eqv (side_comp b) k p') as Hkp.
    { apply (StdMapFacts.eqv_trans _ _ (price o)); [done..|].
      apply StdMapFacts.eqv_sym. by apply eqv_double_ne. }
    assert ((k, push_order o (new_node S) pl0)
              ∈ m1 ++ (k, push_order o (new_node S) pl0) :: m2) as Hin'.
    { rewrite elem_of_app, elem_of_cons. auto. }
    rewrite (StdMapFacts.find_complete _ p' _ k _ Hs' Hp' Hin' Hkp).
    destruct Hc as [->|(-> & -> & ->)].
    + assert ((k, pl0) ∈ m1 ++ [(k, pl0)] ++ m2) as Hin.
      { rewrite !elem_of_app, list_elem_of_singleton. auto. }
      by rewrite (StdMapFacts.find_complete _ p' _ k pl0 Hs Hp' Hin Hkp).
    + simpl.
      assert (StdMap.find (side_comp b) p' (m1 ++ m2) = None) as ->; [|done].
      apply (proj2 (StdMapFacts.find_None_iff _ p' (m1 ++ m2) Hs Hp')).
      intros e Hin Heq.
      apply (StdMapFacts.sorted_focus_unique (side_comp b) m1 (price o)
               (push_order o (new_node S) PriceLevelData_default) m2 e Hs').
      * by apply elem_of_app.
      * apply (StdMapFacts.eqv_trans _ _ p'); [done..|].
        by apply StdMapFacts.eqv_sym.
Qed.

Lemma add_order_observed_demo :
  let o := mkOrder 7 true (double_of_Z 100) 25 1006 in
  level_at true (double_of_Z 100) (add_order o demo_book) =
    (if bool_decide (true = is_buy o) && negb (double_ne (price o) (double_of_Z 100))
     then with_node o (new_node demo_book) (level_at true (double_of_Z 100) demo_book)
     else level_at true (double_of_Z 100) demo_book) /\
  side (negb (is_buy o)) (add_order o demo_book) = side (negb (is_buy o)) demo_book.
Proof.
  apply (add_order_observed demo_book (mkOrder 7 true (double_of_Z 100) 25 1006)
           true (double_of_Z 100)).
  - apply reachable_fresh_reachable, demo_book_reachable.
  - reflexivity.
  - reflexivity.
Defined.

(** After a successful [cancel_order] on a reachable book a caller finds,
    at every price on either side, the level found there before without
    the cancelled node: the level that held it has lost that node and its
    quantity, with the other nodes of its queue in their order, and is gone
    when it held no other node; every other level is as before. *)
Theorem cancel_order_observed S id loc n :
  reachable S ->
  order_lookup_ S !! id = Some loc ->
  nodes S !! loc_list_iter loc = Some n ->
  exists S',
    cancel_order id S = Some (true, S') /\
    forall b' p', is_nan p' = false ->
      level_at b' p' S' =
      without_node (loc_list_iter loc) (quantity (order n)) (level_at b' p' S).
Proof.
  intros HR Hl Hnode. pose proof (reachable_with_inv _ _ HR) as HS.
  destruct (cancel_order_live id loc S HS Hl)
    as (m1 & m2 & k & pl & n' & l1 & l2 & Hm & _ & Hord & Hnode' & _ & _ & _ & Hc).
  rewrite Hnode in Hnode'. injection Hnode' as <-.
  eexists. split; [exact Hc|].
  pose proof (cancel_order_inv id S true _ HS Hc) as HS'.
  set (b := loc_is_buy loc) in *. set (it := loc_list_iter loc) in *.
  set (q := quantity (order n)) in *.
  pose proof (focus_notin b S m1 k pl m2 l1 it l2 HS Hm Hord) as Hnotin.
  revert Hnotin. rewrite !not_elem_of_app. intros (Hn1 & Hn2 & Hn3 & Hn4 & Hn5).
  pose proof (inv_sorted S HS b) as Hs. rewrite Hm in Hs.
  pose proof (inv_sorted _ HS' b) as Hs'. rewrite side_book_of in Hs'.
  assert (forall b1 k1 pl1, (k1, pl1) ∈ side b1 S -> (k1, pl1) <> (k, pl) \/ b1 <> b ->
            it ∉ orders pl1) as Hfar.
  { intros b1 k1 pl1 Hin Hdiff Hi.
    destruct (decide (b1 = b)) as [->|Hb1].
    - revert Hin. rewrite Hm, elem_of_app, elem_of_cons. intros [Hin|[Heq|Hin]].
      + apply Hn1, elem_of_iters_of. by exists k1, pl1.
      + by destruct Hdiff.
      + apply Hn4, elem_of_iters_of. by exists k1, pl1.
    - assert (b1 = negb b) as -> by (by destruct b1, b).
      apply Hn5, elem_of_iters_of. by exists k1, pl1. }
  intros b' p' Hp'. unfold level_at.
  destruct (decide (b' = b)) as [->|Hb'].
  2:{ assert (b' = negb b) as -> by (by destruct b', b).
      rewrite side_book_of_neg.
      destruct (StdMap.find (side_comp (negb b)) p' (side (negb b) S))
        as [[k1 pl1]|] eqn:Hf; [|done].
      apply StdMapFacts.find_Some_elem in Hf as [Hin _]. simpl.
      rewrite decide_False; [done|]. apply (Hfar (negb b) k1 pl1 Hin).
      right. by destruct b. }
  rewrite side_book_of, Hm.
  destruct (eqv_dec (side_comp b) k p') as [Hkp|Hkp].
  - assert ((k, pl) ∈ m1 ++ (k, pl) :: m2) as Hin.
    { rewrite elem_of_app, elem_of_cons. auto. }
    rewrite (StdMapFacts.find_complete _ p' _ k pl Hs Hp' Hin Hkp). simpl.
    rewrite decide_True by (rewrite Hord, elem_of_app, elem_of_cons; auto).
    rewrite Hord, filter_ne_focus by done.
    unfold level_rest in *. destruct (is_empty (l1 ++ l2)).
    + apply (proj2 (StdMapFacts.find_None_iff _ p' _ Hs' Hp')).
      intros e He Heq.
      apply (StdMapFacts.sorted_focus_unique (side_comp b) m1 k pl m2 e Hs).
      * revert He. simpl. by rewrite elem_of_app.
      * apply (StdMapFacts.eqv_trans _ _ p'); [done..|].
        by apply StdMapFacts.eqv_sym.
    + refine (StdMapFacts.find_complete _ p' _ k _ Hs' Hp' _ Hkp).
      rewrite !elem_of_app, list_elem_of_singleton. auto.
  - rewrite (StdMapFacts.find_frame (side_comp b) p' m1 [(k, pl)] _ m2 Hs Hs' Hp').
    + change (m1 ++ (k, pl) :: m2) with (m1 ++ [(k, pl)] ++ m2).
      destruct (StdMap.find (side_comp b) p' (m1 ++ [(k, pl)] ++ m2))
        as [[k1 pl1]|] eqn:Hf; [|done].
      apply StdMapFacts.find_Some_elem in Hf as [Hin Heq]. simpl.
      rewrite decide_False; [done|]. apply (Hfar b k1 pl1).
      * by rewrite Hm.
      * left. intros [= -> ->]. by destruct Hkp.
    + by intros e ->%list_elem_of_singleton.
    + by intros e [_ ->]%elem_of_level_rest.
Qed.

Lemma cancel_order_observed_demo :
  exists S',
    cancel_order 1 demo_book = Some (true, S') /\
    forall b' p', is_nan p' = false ->
      level_at b' p' S' = without_node 1 50 (level_at b' p' demo_book).
Proof.
  apply (cancel_order_observed demo_book 1
           (mkOrderLocation true (double_of_Z 100) 1)
           (mkOrderNode (mkOrder 1 true (double_of_Z 100) 50 1000) 1)).
  - apply reachable_fresh_reachable, demo_book_reachable.
  - vm_compute. reflexivity.
  - vm_compute. reflexivity.
Defined.
